(** * opti-llm: the semantic cache decision engine, embedded in Rocq

    Shallow embedding of
      - [LocalEmbedding] (src/src/embedding.ts),
      - [QdrantCache] (src/src/qdrant.ts),
      - [OptiLLM] (src/src/embedding.ts, the engine class),
      - [OpenAIEmbedding] (src/src/embedding.ts),
    followed by the properties of the specification settled on them and
    by further properties read off the code.

    Conventions.
      - A JavaScript string is a [string] of code units below 256 (the
        Latin-1 range); [toLowerCase] and the [\s] class are exact there.
      - The integer accumulator of the hashing embedding is a [list Z]; the
        normalised output is a [list R] (doubles idealised as reals).
      - Every other JavaScript [number] (times in ms, TTL in s, scores) is a
        rational [Q]; [undefined] is [None].
      - [async] code runs sequentially in a state-and-failure monad over a
        [World]: the Qdrant collection, the clock, the uuid source and the
        number of producer invocations. *)

From Stdlib Require Import ZArith QArith Qabs Reals Lra Lia.
From Stdlib Require Import String Ascii List Bool DecimalString Permutation.
Import ListNotations.

Set Implicit Arguments.
Set Warnings "-register-all".

(* ================================================================== *)
(** * Definitions *)
(* ================================================================== *)

(** ** JavaScript primitives used by the sources *)

Module JS.

Local Open Scope Z_scope.

(** ECMAScript ToInt32: reduction modulo 2^32 into [-2^31, 2^31). *)
Definition to_int32 (z : Z) : Z :=
  (z + 2 ^ 31) mod 2 ^ 32 - 2 ^ 31.

(** [a << n] on numbers: both operands through ToInt32, result an int32. *)
Definition shl (a n : Z) : Z :=
  to_int32 (Z.shiftl (to_int32 a) (n mod 32)).

(** [a & b] on numbers. *)
Definition band (a b : Z) : Z :=
  to_int32 (Z.land (to_int32 a) (to_int32 b)).

(** [str.charCodeAt(i)] for a code unit. *)
Definition charCode (c : ascii) : Z := Z.of_nat (nat_of_ascii c).

(** The code points matched by the regular expression class [\s] that lie
    below 256: TAB, LF, VT, FF, CR, SPACE and NO-BREAK SPACE. *)
Definition is_whitespace (c : ascii) : bool :=
  let n := nat_of_ascii c in
  ((9 <=? n) && (n <=? 13) || (n =? 32) || (n =? 160))%nat.

(** [String.prototype.toLowerCase] on one code unit below 256: A-Z and
    the Latin-1 capitals U+00C0..U+00DE except the sign U+00D7. *)
Definition lower_char (c : ascii) : ascii :=
  let n := nat_of_ascii c in
  if ((65 <=? n) && (n <=? 90))%nat then ascii_of_nat (n + 32)
  else if ((192 <=? n) && (n <=? 222) && negb (n =? 215))%nat
       then ascii_of_nat (n + 32)
       else c.

Fixpoint toLowerCase (s : string) : string :=
  match s with
  | EmptyString => EmptyString
  | String c r => String (lower_char c) (toLowerCase r)
  end.

(** [s.split(/\s+/)]: [cur] is the piece being read, [in_ws] tells that the
    previous code unit belonged to a separator run.  A leading or trailing
    separator yields an empty piece, as in JavaScript. *)
Fixpoint split_go (in_ws : bool) (cur : string) (s : string) : list string :=
  match s with
  | EmptyString => [cur]
  | String c r =>
      if is_whitespace c
      then (if in_ws then split_go true cur r
            else cur :: split_go true EmptyString r)
      else split_go false (cur ++ String c EmptyString) r
  end.

Definition split_ws (s : string) : list string :=
  split_go false EmptyString s.

(** A text that is empty or made of separators only. *)
Fixpoint all_whitespace (s : string) : bool :=
  match s with
  | EmptyString => true
  | String c r => is_whitespace c && all_whitespace r
  end.

(** [Boolean(str)]: a string is truthy iff it is not empty. *)
Definition truthy_string (s : string) : bool :=
  match s with EmptyString => false | String _ _ => true end.

(** [Boolean(x)] for an optional string property. *)
Definition truthy_opt_string (o : option string) : bool :=
  match o with Some s => truthy_string s | None => false end.

(** [Boolean(x)] for an optional number: [undefined] and [0] are falsy. *)
Definition truthy_opt_number (o : option Q) : bool :=
  match o with Some q => negb (Qeq_bool q 0) | None => false end.

(** [a ?? b]. *)
Definition nullish {A : Type} (a b : option A) : option A :=
  match a with Some x => Some x | None => b end.

End JS.

(** ** LocalEmbedding (src/src/embedding.ts, lines 23-54) *)

Module LocalEmbedding.

Import JS.
Local Open Scope Z_scope.

(** The default constructor argument [dim = 384]. *)
Definition default_dim : nat := 384.

(** One round of the loop of [simpleHash]:
    [hash = ((hash << 5) - hash) + char; hash = hash & hash]. *)
Definition hash_step (hash : Z) (c : ascii) : Z :=
  let hash := (shl hash 5 - hash) + charCode c in
  band hash hash.

Fixpoint hash_loop (hash : Z) (str : string) : Z :=
  match str with
  | EmptyString => hash
  | String c r => hash_loop (hash_step hash c) r
  end.

(** [simpleHash(str)]: [Math.abs] of the 32-bit rolling hash. *)
Definition simpleHash (str : string) : Z :=
  Z.abs (hash_loop 0 str).

(** [vector[i] += 1] at an index inside the array. *)
Fixpoint incr_at (i : nat) (vector : list Z) : list Z :=
  match vector, i with
  | [], _ => []
  | x :: r, O => (x + 1) :: r
  | x :: r, S j => x :: incr_at j r
  end.

(** The body of the [for] loop.  With [dim = 0] the index is [NaN] and the
    assignment creates a property that is no array element: the elements
    are unchanged. *)
Definition add_token (dim : nat) (vector : list Z) (token : string) : list Z :=
  match dim with
  | O => vector
  | S _ => incr_at (Z.to_nat (simpleHash token mod Z.of_nat dim)) vector
  end.

(** [text.toLowerCase().split(/\s+/).filter(Boolean)]. *)
Definition tokenize (text : string) : list string :=
  filter truthy_string (split_ws (toLowerCase text)).

(** [new Array(dim).fill(0)] followed by the loop over the tokens. *)
Definition accumulate (dim : nat) (tokens : list string) : list Z :=
  fold_left (add_token dim) tokens (repeat 0 dim).

Local Open Scope R_scope.

(** [vector.reduce((sum, val) => sum + val * val, 0)]. *)
Definition sum_squares (vector : list Z) : R :=
  fold_left (fun sum val => sum + IZR val * IZR val) vector 0.

(** [Math.sqrt(vector.reduce(...))]. *)
Definition norm_of (vector : list Z) : R := sqrt (sum_squares vector).

(** [embed(text)]. *)
Definition embed (dim : nat) (text : string) : list R :=
  let tokens := tokenize text in
  let vector := accumulate dim tokens in
  let norm := norm_of vector in
  if Rlt_dec 0 norm then map (fun v => IZR v / norm) vector
  else map IZR vector.

(** Euclidean norm of an output vector. *)
Definition euclidean_norm (v : list R) : R :=
  sqrt (fold_right (fun x acc => x * x + acc) 0 v).

End LocalEmbedding.

(** ** JSON.stringify on the values a producer returns *)

Module JSON.

(** The JSON-serialisable JavaScript values (numbers restricted to
    integers; objects are not needed by the engine). *)
Inductive json : Type :=
| JNull : json
| JBool : bool -> json
| JNum : Z -> json
| JStr : string -> json
| JArr : list json -> json.

Definition dquote : ascii := "034"%char.

Definition hex_digit (n : nat) : ascii :=
  if (n <? 10)%nat then ascii_of_nat (48 + n) else ascii_of_nat (87 + n).

(** QuoteJSONString on one code unit. *)
Definition escape_char (c : ascii) : string :=
  let n := nat_of_ascii c in
  if (n =? 34)%nat then String "\" (String dquote EmptyString)
  else if (n =? 92)%nat then "\\"
  else if (n =? 8)%nat then "\b"
  else if (n =? 9)%nat then "\t"
  else if (n =? 10)%nat then "\n"
  else if (n =? 12)%nat then "\f"
  else if (n =? 13)%nat then "\r"
  else if (n <? 32)%nat
       then "\u00" ++ String (hex_digit (n / 16)) (String (hex_digit (n mod 16)) EmptyString)
       else String c EmptyString.

Fixpoint escape (s : string) : string :=
  match s with
  | EmptyString => EmptyString
  | String c r => escape_char c ++ escape r
  end.

Definition quote (s : string) : string :=
  String dquote (escape s ++ String dquote EmptyString).

Definition number_to_string (n : Z) : string :=
  NilZero.string_of_int (Z.to_int n).

Fixpoint join (sep : string) (l : list string) : string :=
  match l with
  | [] => EmptyString
  | [x] => x
  | x :: r => x ++ sep ++ join sep r
  end.

(** [JSON.stringify(value)]. *)
Fixpoint stringify (v : json) : string :=
  match v with
  | JNull => "null"
  | JBool true => "true"
  | JBool false => "false"
  | JNum n => number_to_string n
  | JStr s => quote s
  | JArr l => "[" ++ join "," (map stringify l) ++ "]"
  end.

End JSON.

(** ** The Qdrant collection as the SDK sees it *)

Module Qdrant.

Local Open Scope Q_scope.
Local Open Scope string_scope.

(** A thrown JavaScript error, identified by its message. *)
Definition exn : Type := string.

(** [CaptureOptions.metadata] (src/src/types.ts). *)
Record Metadata : Type := {
  provider : string;
  model : string;
  userId : option string;
  tenantId : option string
}.

(** The object [{ ...metadata, prompt }] written by [capture]. *)
Record StoredMetadata : Type := {
  sm_provider : string;
  sm_model : string;
  sm_userId : option string;
  sm_tenantId : option string;
  sm_prompt : string
}.

Definition with_prompt (metadata : Metadata) (prompt : string) : StoredMetadata :=
  {| sm_provider := provider metadata;
     sm_model := model metadata;
     sm_userId := userId metadata;
     sm_tenantId := tenantId metadata;
     sm_prompt := prompt |}.

(** The payload object built by [QdrantCache.store]. *)
Record Payload : Type := {
  response : string;
  metadata : StoredMetadata;
  createdAt : Q;
  expiresAt : option Q
}.

(** A filter condition as the SDK builds them: the tenant match of
    [capture] and the range condition of [cleanup]. *)
Inductive Condition : Type :=
| Match : string -> string -> Condition
| RangeLt : string -> Q -> Condition.

(** The filter object; [{}] is [{| must := [] |}]. *)
Record Filter : Type := { must : list Condition }.

Definition empty_filter : Filter := {| must := [] |}.

(** Payload fields reachable by the keys the SDK uses. *)
Definition keyword_field (key : string) (p : Payload) : option string :=
  if key =? "metadata.tenantId" then sm_tenantId (metadata p)
  else if key =? "metadata.userId" then sm_userId (metadata p)
  else if key =? "metadata.provider" then Some (sm_provider (metadata p))
  else if key =? "metadata.model" then Some (sm_model (metadata p))
  else None.

Definition number_field (key : string) (p : Payload) : option Q :=
  if key =? "expiresAt" then expiresAt p
  else if key =? "createdAt" then Some (createdAt p)
  else None.

Definition Qlt_bool (a b : Q) : bool := negb (Qle_bool b a).

(** Contract of the external service for one condition: a match needs
    the field present and equal; a range needs it present and below the
    bound. *)
Definition condition_holds (c : Condition) (p : Payload) : bool :=
  match c with
  | Match key value =>
      match keyword_field key p with
      | Some x => x =? value
      | None => false
      end
  | RangeLt key bound =>
      match number_field key p with
      | Some x => Qlt_bool x bound
      | None => false
      end
  end.

Definition filter_matches (f : Filter) (p : Payload) : bool :=
  forallb (fun c => condition_holds c p) (must f).

Section Collection.

(** The element type of [number[]] vectors is left open: the engine only
    passes vectors on. *)
Variable Vector : Type.

(** A stored point. *)
Record Point : Type := {
  pt_id : string;
  pt_vector : Vector;
  pt_payload : Payload
}.

(** One element of the answer of the client's [search]. *)
Record ScoredPoint : Type := {
  sp_id : string;
  sp_score : Q;
  sp_payload : Payload
}.

(** The object [searchParams] of [QdrantCache.search]. *)
Record SearchParams : Type := {
  q_vector : Vector;
  q_limit : nat;
  q_score_threshold : Q;
  q_with_payload : bool;
  q_filter : option Filter
}.

(** The three requests of [QdrantClient] the SDK issues.  Each either
    fails with an error or answers; [upsert] and [delete] answer with the
    new content of the collection. *)
Record Client : Type := {
  client_search : list Point -> SearchParams -> exn + list ScoredPoint;
  client_upsert : list Point -> Point -> exn + list Point;
  client_delete : list Point -> Filter -> exn + list Point
}.

(** What a successful [upsert] of one point does: replace the point with
    the same id, or add the point. *)
Definition upsert_point (pts : list Point) (p : Point) : list Point :=
  if existsb (fun x => pt_id x =? pt_id p) pts
  then map (fun x => if pt_id x =? pt_id p then p else x) pts
  else pts ++ [p].

(** What a successful [delete] by filter does. *)
Definition delete_matching (f : Filter) (pts : list Point) : list Point :=
  filter (fun x => negb (filter_matches f (pt_payload x))) pts.

Definition matches_opt (f : option Filter) (p : Payload) : bool :=
  match f with Some g => filter_matches g p | None => true end.

Definition answer_of (sp : ScoredPoint) (p : Point) : Prop :=
  sp_id sp = pt_id p /\ sp_payload sp = pt_payload p.

(** The contract of the store (section 4.2 of the specification). *)
Record honors_contract (c : Client) : Prop := {
  search_from_collection :
    forall pts ps res, client_search c pts ps = inr res ->
      Forall (fun sp => exists p, In p pts /\ answer_of sp p) res;
  search_filtered :
    forall pts ps res, client_search c pts ps = inr res ->
      Forall (fun sp => matches_opt (q_filter ps) (sp_payload sp) = true) res;
  search_above_threshold :
    forall pts ps res, client_search c pts ps = inr res ->
      Forall (fun sp => q_score_threshold ps <= sp_score sp) res;
  search_limited :
    forall pts ps res, client_search c pts ps = inr res ->
      (length res <= q_limit ps)%nat;
  upsert_done :
    forall pts p pts', client_upsert c pts p = inr pts' ->
      pts' = upsert_point pts p;
  delete_done :
    forall pts f pts', client_delete c pts f = inr pts' ->
      pts' = delete_matching f pts
}.

(** *** A reference client: exhaustive search in memory *)

Variable similarity : Vector -> Vector -> Q.

Definition score_point (v : Vector) (p : Point) : ScoredPoint :=
  {| sp_id := pt_id p;
     sp_score := similarity v (pt_vector p);
     sp_payload := pt_payload p |}.

Fixpoint insert_desc (x : ScoredPoint) (l : list ScoredPoint) : list ScoredPoint :=
  match l with
  | [] => [x]
  | y :: r => if Qlt_bool (sp_score y) (sp_score x)
              then x :: l
              else y :: insert_desc x r
  end.

Definition sort_desc (l : list ScoredPoint) : list ScoredPoint :=
  fold_right insert_desc [] l.

Definition mem_search (pts : list Point) (ps : SearchParams) : list ScoredPoint :=
  firstn (q_limit ps)
    (sort_desc
       (filter (fun sp => Qle_bool (q_score_threshold ps) (sp_score sp))
          (map (score_point (q_vector ps))
             (filter (fun p => matches_opt (q_filter ps) (pt_payload p)) pts)))).

Definition mem_client : Client :=
  {| client_search := fun pts ps => inr (mem_search pts ps);
     client_upsert := fun pts p => inr (upsert_point pts p);
     client_delete := fun pts f => inr (delete_matching f pts) |}.

(** A client whose every request fails. *)
Definition down_client (e : exn) : Client :=
  {| client_search := fun _ _ => inl e;
     client_upsert := fun _ _ => inl e;
     client_delete := fun _ _ => inl e |}.

End Collection.

End Qdrant.

(** ** Sequential execution of the [async] methods *)

Module Run.

Import Qdrant.

Section World.

Variable Vector : Type.

(** Everything outside the engine that a call can read or change. *)
Record World : Type := {
  points : list (Point Vector);   (* content of the collection *)
  clock : nat -> Q;               (* the successive values of Date.now() *)
  clock_reads : nat;
  uuids : nat -> string;          (* the successive values of uuidv4() *)
  uuids_drawn : nat;
  llm_calls : nat                 (* invocations of the producer so far *)
}.

(** A computation either throws or returns, and leaves a world. *)
Definition M (A : Type) : Type := World -> (exn + A) * World.

Definition ret {A : Type} (a : A) : M A := fun w => (inr a, w).

Definition throw {A : Type} (e : exn) : M A := fun w => (inl e, w).

Definition bind {A B : Type} (m : M A) (k : A -> M B) : M B :=
  fun w =>
    match m w with
    | (inl e, w') => (inl e, w')
    | (inr a, w') => k a w'
    end.

(** [try { m } catch (error) { h(error) }]. *)
Definition try_catch {A : Type} (m : M A) (h : exn -> M A) : M A :=
  fun w =>
    match m w with
    | (inl e, w') => h e w'
    | (inr a, w') => (inr a, w')
    end.

Definition lift {A : Type} (r : exn + A) : M A := fun w => (r, w).

(** [Date.now()]. *)
Definition Date_now : M Q :=
  fun w =>
    (inr (clock w (clock_reads w)),
     {| points := points w; clock := clock w; clock_reads := S (clock_reads w);
        uuids := uuids w; uuids_drawn := uuids_drawn w; llm_calls := llm_calls w |}).

(** [uuidv4()]. *)
Definition uuidv4 : M string :=
  fun w =>
    (inr (uuids w (uuids_drawn w)),
     {| points := points w; clock := clock w; clock_reads := clock_reads w;
        uuids := uuids w; uuids_drawn := S (uuids_drawn w); llm_calls := llm_calls w |}).

Definition set_points (w : World) (pts : list (Point Vector)) : World :=
  {| points := pts; clock := clock w; clock_reads := clock_reads w;
     uuids := uuids w; uuids_drawn := uuids_drawn w; llm_calls := llm_calls w |}.

(** [await llmCall()]: the producer is invoked once and settles with the
    given outcome. *)
Definition invoke {A : Type} (llmCall : exn + A) : M A :=
  fun w =>
    (llmCall,
     {| points := points w; clock := clock w; clock_reads := clock_reads w;
        uuids := uuids w; uuids_drawn := uuids_drawn w; llm_calls := S (llm_calls w) |}).

(** [array.map(f)] with an effectful [f], left to right. *)
Fixpoint mapM {A B : Type} (f : A -> M B) (l : list A) : M (list B) :=
  match l with
  | [] => ret []
  | x :: r => bind (f x) (fun y => bind (mapM f r) (fun ys => ret (y :: ys)))
  end.

End World.

Arguments ret {Vector A} a.
Arguments throw {Vector A} e.
Arguments lift {Vector A} r.
Arguments invoke {Vector A} llmCall.
Arguments Date_now {Vector}.
Arguments uuidv4 {Vector}.

End Run.

Declare Scope run_scope.
Delimit Scope run_scope with run.
Notation "x <- m ;; k" := (Run.bind m (fun x => k))
  (at level 61, m at next level, right associativity) : run_scope.
Notation "m ;;; k" := (Run.bind m (fun _ => k))
  (at level 61, right associativity) : run_scope.

(** ** QdrantCache (src/src/qdrant.ts) *)

Module QdrantCache.

Import JS Qdrant Run.
Local Open Scope Q_scope.
Local Open Scope run_scope.

(** [CachedResult] (src/src/types.ts). *)
Record CachedResult : Type := {
  cr_id : string;
  cr_response : string;
  cr_score : Q;
  cr_metadata : StoredMetadata;
  cr_createdAt : Q
}.

Section Cache.

Variable Vector : Type.
Variable client : Client Vector.

Local Abbreviation M := (Run.M Vector).

(** The three awaited requests on [this.client]. *)
Definition request_search (ps : SearchParams Vector) : M (list (ScoredPoint)) :=
  fun w => (client_search client (points w) ps, w).

Definition request_upsert (p : Point Vector) : M unit :=
  fun w =>
    match client_upsert client (points w) p with
    | inl e => (inl e, w)
    | inr pts => (inr tt, set_points w pts)
    end.

Definition request_delete (f : Filter) : M unit :=
  fun w =>
    match client_delete client (points w) f with
    | inl e => (inl e, w)
    | inr pts => (inr tt, set_points w pts)
    end.

(** The arrow function of [results.map] in [search]:
    [score: result.score || 0] and
    [createdAt: result.payload?.createdAt || Date.now()]. *)
Definition to_cached (result : ScoredPoint) : M CachedResult :=
  created <- (if Qeq_bool (createdAt (sp_payload result)) 0
              then Date_now
              else ret (createdAt (sp_payload result))) ;;
  ret {| cr_id := sp_id result;
         cr_response := response (sp_payload result);
         cr_score := if Qeq_bool (sp_score result) 0 then 0 else sp_score result;
         cr_metadata := metadata (sp_payload result);
         cr_createdAt := created |}.

(** [search(vector, limit = 1, scoreThreshold = 0.8, filter?)]. *)
Definition search (vector : Vector) (limit : option nat)
  (scoreThreshold : option Q) (filter : option Filter) : M (list CachedResult) :=
  let limit := match limit with Some n => n | None => 1%nat end in
  let scoreThreshold := match scoreThreshold with Some t => t | None => 8 # 10 end in
  let searchParams :=
    {| q_vector := vector; q_limit := limit; q_score_threshold := scoreThreshold;
       q_with_payload := true;
       q_filter := match filter with Some f => Some f | None => None end |} in
  try_catch
    (results <- request_search searchParams ;;
     mapM to_cached results)
    (fun error => throw error).

(** [store(vector, response, metadata, ttl?)]. *)
Definition store (vector : Vector) (response : string)
  (metadata : StoredMetadata) (ttl : option Q) : M string :=
  id <- uuidv4 ;;
  now <- Date_now ;;
  let payload :=
    {| Qdrant.response := response;
       Qdrant.metadata := metadata;
       createdAt := now;
       expiresAt := if truthy_opt_number ttl
                    then match ttl with
                         | Some t => Some (now + t * 1000)
                         | None => None
                         end
                    else None |} in
  request_upsert {| pt_id := id; pt_vector := vector; pt_payload := payload |} ;;;
  ret id.

(** [cleanup()]. *)
Definition cleanup : M unit :=
  now <- Date_now ;;
  try_catch
    (request_delete {| must := [RangeLt "expiresAt" now] |})
    (fun error => ret tt).

End Cache.

End QdrantCache.

(** ** OptiLLM (the engine class in src/src/embedding.ts, lines 60-173) *)

Module OptiLLM.

Import JS JSON Qdrant Run QdrantCache.
Local Open Scope Q_scope.
Local Open Scope run_scope.

(** The interface [EmbeddingProvider] (src/src/types.ts); [embed] may
    reject. *)
Class EmbeddingProvider (Vector : Type) : Type := {
  embed : string -> exn + Vector
}.

(** [LocalEmbedding implements EmbeddingProvider]; its [embed] never
    rejects. *)
#[global] Instance LocalEmbedding_provider (dim : nat) : EmbeddingProvider (list R) :=
  {| embed := fun text => inr (LocalEmbedding.embed dim text) |}.

(** [CaptureOptions.policy]. *)
Record Policy : Type := {
  maxAge : option Q;
  minSimilarity : option Q
}.

(** [CaptureOptions] (src/src/types.ts). *)
Record CaptureOptions : Type := {
  prompt : string;
  co_metadata : Metadata;
  policy : option Policy
}.

(** The options of [OptiLLMConfig] the decision depends on. *)
Record OptiLLMConfig : Type := {
  in_collectionName : option string;
  in_defaultTTL : option Q;
  in_similarityThreshold : option Q
}.

(** [this.config] after the constructor; a number that is [undefined] at
    run time is [None]. *)
Record Config : Type := {
  collectionName : string;
  defaultTTL : option Q;
  similarityThreshold : option Q
}.

(** The object spread of the constructor: the defaults, overridden by the
    options that are given. *)
Definition make_config (config : OptiLLMConfig) : Config :=
  {| collectionName :=
       match in_collectionName config with Some n => n | None => "llm_cache"%string end;
     defaultTTL :=
       match in_defaultTTL config with Some t => Some t | None => Some 3600 end;
     similarityThreshold :=
       match in_similarityThreshold config with Some t => Some t | None => Some (85 # 100) end |}.

(** The value [capture] resolves to. *)
Record CaptureResult : Type := {
  cr_payload : json;        (* response *)
  cached : bool;
  cost_saved : option bool
}.

(** [policy?.maxAge] and [policy?.minSimilarity]. *)
Definition policy_maxAge (p : option Policy) : option Q :=
  match p with Some x => maxAge x | None => None end.

Definition policy_minSimilarity (p : option Policy) : option Q :=
  match p with Some x => minSimilarity x | None => None end.

(** Lines 115-121: the filter for tenant scoping. *)
Definition build_filter (metadata : Metadata) : Filter :=
  if truthy_opt_string (tenantId metadata)
  then match tenantId metadata with
       | Some t => {| must := must empty_filter ++ [Match "metadata.tenantId" t] |}
       | None => empty_filter
       end
  else empty_filter.

(** [!maxAge || age < maxAge]. *)
Definition fresh (maxAge : option Q) (age : Q) : bool :=
  negb (truthy_opt_number maxAge)
  || match maxAge with Some m => Qlt_bool age m | None => false end.

Section Engine.

Variable Vector : Type.
Variable embedder : EmbeddingProvider Vector. (* this.embedder *)
Variable client : Client Vector.              (* the client of this.cache *)
Variable config : Config.                     (* this.config *)

Local Abbreviation M := (Run.M Vector).

(** Lines 109-125 of [capture]: embedding, filter, threshold, search. *)
Definition capture_search (options : CaptureOptions) : M (Vector * list CachedResult) :=
  let metadata := co_metadata options in
  vector <- lift (embed (prompt options)) ;;
  let filter := build_filter metadata in
  let threshold := nullish (policy_minSimilarity (policy options)) (similarityThreshold config) in
  results <- search client vector (Some 1%nat) threshold (Some filter) ;;
  ret (vector, results).

(** Lines 128-143: the answer from the cache, if the first result is
    fresh; [None] when control falls through to the miss path. *)
Definition capture_hit (options : CaptureOptions) (results : list CachedResult)
  : M (option CaptureResult) :=
  match results with
  | cached :: _ =>
      let maxAge := nullish (policy_maxAge (policy options)) (defaultTTL config) in
      now <- Date_now ;;
      let age := (now - cr_createdAt cached) / 1000 in
      if fresh maxAge age
      then ret (Some {| cr_payload := JStr (cr_response cached);
                        cached := true;
                        cost_saved := Some true |})
      else ret None
  | [] => ret None
  end.

(** Lines 145-158: the miss path. *)
Definition capture_miss (options : CaptureOptions) (vector : Vector)
  (llmCall : exn + json) : M CaptureResult :=
  response <- invoke llmCall ;;
  let ttl := nullish (policy_maxAge (policy options)) (defaultTTL config) in
  store client vector (stringify response)
    (with_prompt (co_metadata options) (prompt options)) ttl ;;;
  ret {| cr_payload := response; cached := false; cost_saved := None |}.

(** [capture(options, llmCall)]. *)
Definition capture (options : CaptureOptions) (llmCall : exn + json) : M CaptureResult :=
  found <- capture_search options ;;
  let (vector, results) := found in
  early <- capture_hit options results ;;
  match early with
  | Some answer => ret answer
  | None => capture_miss options vector llmCall
  end.

(** [cleanup()]. *)
Definition cleanup : M unit := QdrantCache.cleanup client.

End Engine.

End OptiLLM.

(** ** Quantities used to state the properties *)

Module Measure.

Local Open Scope Z_scope.

(** Sum of the components of an integer accumulator. *)
Definition total (v : list Z) : Z := fold_right Z.add 0 v.

(** Sum of the squares of the components, over the integers. *)
Definition squares (v : list Z) : Z := fold_right (fun x acc => x * x + acc) 0 v.

(** The parts of the world a lookup must leave as they are. *)
Definition untouched {Vector : Type} (w w' : Run.World Vector) : Prop :=
  Run.points w' = Run.points w /\
  Run.llm_calls w' = Run.llm_calls w /\
  Run.uuids w' = Run.uuids w /\
  Run.uuids_drawn w' = Run.uuids_drawn w /\
  Run.clock w' = Run.clock w /\
  (Run.clock_reads w <= Run.clock_reads w')%nat.

(** The cached result [c] is the view of the answer [sp] of the client. *)
Definition view_of (sp : Qdrant.ScoredPoint) (c : QdrantCache.CachedResult) : Prop :=
  QdrantCache.cr_id c = Qdrant.sp_id sp /\
  QdrantCache.cr_response c = Qdrant.response (Qdrant.sp_payload sp) /\
  QdrantCache.cr_metadata c = Qdrant.metadata (Qdrant.sp_payload sp) /\
  (~ Qdrant.createdAt (Qdrant.sp_payload sp) == 0 ->
   QdrantCache.cr_createdAt c = Qdrant.createdAt (Qdrant.sp_payload sp))%Q.

(** The cached result [c] shows the stored point [p]. *)
Definition shows {Vector : Type} (c : QdrantCache.CachedResult)
  (p : Qdrant.Point Vector) : Prop :=
  QdrantCache.cr_id c = Qdrant.pt_id p /\
  QdrantCache.cr_response c = Qdrant.response (Qdrant.pt_payload p) /\
  QdrantCache.cr_metadata c = Qdrant.metadata (Qdrant.pt_payload p).

(** The point has an expiry time strictly before [now]. *)
Definition expired_before {Vector : Type} (now : Q) (p : Qdrant.Point Vector) : bool :=
  match Qdrant.expiresAt (Qdrant.pt_payload p) with
  | Some e => Qdrant.Qlt_bool e now
  | None => false
  end.

(** The object [searchParams] that [capture] makes [search] send. *)
Definition capture_params {Vector : Type} (config : OptiLLM.Config)
  (options : OptiLLM.CaptureOptions) (vector : Vector) : Qdrant.SearchParams Vector :=
  {| Qdrant.q_vector := vector;
     Qdrant.q_limit := 1;
     Qdrant.q_score_threshold :=
       match JS.nullish (OptiLLM.policy_minSimilarity (OptiLLM.policy options))
                        (OptiLLM.similarityThreshold config) with
       | Some t => t
       | None => 8 # 10
       end;
     Qdrant.q_with_payload := true;
     Qdrant.q_filter := Some (OptiLLM.build_filter (OptiLLM.co_metadata options)) |}.

(** The point that [store] hands to [upsert] when [uuidv4()] gives [id]
    and [Date.now()] gives [now]. *)
Definition stored_point {Vector : Type} (id : string) (now : Q) (vector : Vector)
  (response : string) (metadata : Qdrant.StoredMetadata) (ttl : option Q)
  : Qdrant.Point Vector :=
  {| Qdrant.pt_id := id;
     Qdrant.pt_vector := vector;
     Qdrant.pt_payload :=
       {| Qdrant.response := response;
          Qdrant.metadata := metadata;
          Qdrant.createdAt := now;
          Qdrant.expiresAt :=
            match ttl with
            | Some t => if Qeq_bool t 0 then None else Some (now + t * 1000)%Q
            | None => None
            end |} |}.

(** The value of [maxAge] (and of [ttl]) in [capture]. *)
Definition resolved_maxAge (config : OptiLLM.Config) (options : OptiLLM.CaptureOptions)
  : option Q :=
  JS.nullish (OptiLLM.policy_maxAge (OptiLLM.policy options)) (OptiLLM.defaultTTL config).

(** The answers of [capture] on a hit and on a miss. *)
Definition hit_answer (found : QdrantCache.CachedResult) : OptiLLM.CaptureResult :=
  {| OptiLLM.cr_payload := JSON.JStr (QdrantCache.cr_response found);
     OptiLLM.cached := true;
     OptiLLM.cost_saved := Some true |}.

Definition miss_answer (p : JSON.json) : OptiLLM.CaptureResult :=
  {| OptiLLM.cr_payload := p; OptiLLM.cached := false; OptiLLM.cost_saved := None |}.

End Measure.

(** ** A concrete deployment, used to run the engine on examples *)

Module Scenario.

Import JSON Qdrant Run QdrantCache OptiLLM.
Local Open Scope Q_scope.
Local Open Scope string_scope.

(** Vectors of integers: the un-normalised bag of hashed words with 8
    buckets, compared by the square of the cosine (a rational). *)
Definition Vector : Type := list Z.

Definition embedder : EmbeddingProvider Vector :=
  {| embed := fun text => inr (LocalEmbedding.accumulate 8 (LocalEmbedding.tokenize text)) |}.

Definition dot (a b : Vector) : Z :=
  fold_right Z.add 0%Z (map (fun xy => (fst xy * snd xy)%Z) (combine a b)).

Definition similarity (a b : Vector) : Q :=
  if (dot a a * dot b b =? 0)%Z then 0
  else Qmake (dot a b * dot a b) (Z.to_pos (dot a a * dot b b)).

Definition client : Client Vector := mem_client similarity.

(** Threshold 0.85 and a TTL of 60 seconds, as in the example of the
    specification. *)
Definition config : Config :=
  make_config {| in_collectionName := None;
                 in_defaultTTL := Some 60;
                 in_similarityThreshold := None |}.

(** The values that [uuidv4()] returns, in order. *)
Definition uuid_of (n : nat) : string :=
  nth n ["1b4e28ba-2fa1-41d2-883f-0016d3cca427";
         "6fa459ea-ee8a-4ca4-894e-db77e160355e";
         "7d444840-9dc0-41d1-b245-5ffdce74fad2";
         "e902893a-9d22-4c7e-a7b8-d6e313b71d9f"]
        "16fd2706-8baf-433b-82eb-8c7fada847da".

(** The values that [Date.now()] returns, in order: [step] ms apart. *)
Definition readings (step : Z) : list Q :=
  map (fun k => inject_Z (1700000000000 + step * k)) [0; 1; 2; 3; 4; 5; 6; 7]%Z.

Definition clock_of (step : Z) (n : nat) : Q :=
  nth n (readings step) (inject_Z (1700000000000 + step * 8)).

(** A collection holding [pts]; the clock advances by [step] ms between
    two readings. *)
Definition stocked (pts : list (Point Vector)) (step : Z) : World Vector :=
  {| points := pts;
     clock := clock_of step;
     clock_reads := 0;
     uuids := uuid_of;
     uuids_drawn := 0;
     llm_calls := 0 |}.

(** The same with an empty collection. *)
Definition world (step : Z) : World Vector := stocked [] step.

Definition options_for (tenant : option string) : CaptureOptions :=
  {| prompt := "What is the capital of France?";
     co_metadata := {| provider := "openai"; model := "gpt-4o-mini";
                       userId := None; tenantId := tenant |};
     policy := None |}.

Definition run_capture (options : CaptureOptions) (llmCall : exn + json)
  (w : World Vector) : (exn + CaptureResult) * World Vector :=
  capture embedder client config options llmCall w.

(** The world after a first capture for tenant [acme] whose producer
    answers [Paris]. *)
Definition after_first (step : Z) : World Vector :=
  snd (run_capture (options_for (Some "acme")) (inr (JStr "Paris")) (world step)).

(** A record with the given creation and expiry times. *)
Definition record (id : string) (created : Q) (expires : option Q) : Point Vector :=
  {| pt_id := id; pt_vector := [1%Z];
     pt_payload := {| response := "null";
                      metadata := with_prompt (co_metadata (options_for None)) "p";
                      createdAt := created;
                      expiresAt := expires |} |}.

(** The record written by that first capture. *)
Definition acme_record : Point Vector :=
  hd (record "none" 0 None) (points (after_first 5000)).

End Scenario.

(** ** OpenAIEmbedding (src/src/embedding.ts, lines 4-20) *)

Module OpenAIEmbedding.

Import JS Qdrant.
Local Open Scope string_scope.

(** [text.replace(/\n/g, ' ')]: every LINE FEED becomes a space. *)
Fixpoint replace_newlines (s : string) : string :=
  match s with
  | EmptyString => EmptyString
  | String c r =>
      String (if (nat_of_ascii c =? 10)%nat then " "%char else c) (replace_newlines r)
  end.

(** [String.prototype.trim]: the white space and line terminators it
    strips are, below 256, the code units of [is_whitespace]. *)
Fixpoint trim_start (s : string) : string :=
  match s with
  | EmptyString => EmptyString
  | String c r => if is_whitespace c then trim_start r else s
  end.

Fixpoint trim_end (s : string) : string :=
  match s with
  | EmptyString => EmptyString
  | String c r =>
      match trim_end r with
      | EmptyString => if is_whitespace c then EmptyString else String c EmptyString
      | String d t => String c (String d t)
      end
  end.

Definition trim (s : string) : string := trim_end (trim_start s).

(** The [input] field of the request: [text.replace(/\n/g, ' ').trim()]. *)
Definition prepare_input (text : string) : string :=
  trim (replace_newlines text).

(** The default of the constructor parameter [model]. *)
Definition default_model : string := "text-embedding-3-small".

(** [new OpenAIEmbedding(apiKey, model = 'text-embedding-3-small')]: the
    model name the instance keeps. *)
Definition model_of (model : option string) : string :=
  match model with Some m => m | None => default_model end.

Section Remote.

Variable Vector : Type.

(** [this.client.embeddings.create({ model, input })], reduced to the
    embeddings of [response.data]; the call is external and may reject. *)
Variable create : string -> string -> exn + list Vector.

(** [embed(text)]: the embedding of [response.data[0]]; reading it from an
    empty [data] throws a [TypeError]. *)
Definition embed (model : string) (text : string) : exn + Vector :=
  match create model (prepare_input text) with
  | inl e => inl e
  | inr [] => inl "TypeError: Cannot read properties of undefined (reading 'embedding')"
  | inr (v :: _) => inr v
  end.

End Remote.

End OpenAIEmbedding.

(** ** QdrantCache.suggest (src/src/qdrant.ts, lines 100-107) *)

Module Suggest.

Import Qdrant Run QdrantCache.
Local Open Scope Q_scope.

Section Cache.

Variable Vector : Type.
Variable client : Client Vector.

(** [suggest(vector, limit = 5, scoreThreshold = 0.7, filter?)]. *)
Definition suggest (vector : Vector) (limit : option nat)
  (scoreThreshold : option Q) (filter : option Filter)
  : Run.M Vector (list CachedResult) :=
  let limit := match limit with Some n => n | None => 5%nat end in
  let scoreThreshold := match scoreThreshold with Some t => t | None => 7 # 10 end in
  search client vector (Some limit) (Some scoreThreshold) filter.

End Cache.

End Suggest.

(** ** QdrantCache.ensureCollection (src/src/qdrant.ts, lines 17-64) *)

Module Admin.

Import JS Qdrant.
Local Open Scope string_scope.

(** The [type] of a payload index. *)
Inductive FieldType : Type := keyword | integer | float | bool_field | text_field.

(** The administrative requests the SDK sends. *)
Inductive Request : Type :=
| GetCollection : string -> Request
| CreateCollection : string -> nat -> string -> Request   (* name, size, distance *)
| CreatePayloadIndex : string -> string -> FieldType -> Request.

(** Lines written to the console. *)
Inductive LogLine : Type :=
| Log : string -> LogLine
| Warn : string -> string -> LogLine.

(** [/already exists/i.test(msg)]: the pattern has ASCII letters and a
    space only, so two code units match when [toLowerCase] makes them
    equal. *)
Fixpoint prefix_ci (pattern s : string) : bool :=
  match pattern, s with
  | EmptyString, _ => true
  | String _ _, EmptyString => false
  | String a p, String b r =>
      Ascii.eqb (lower_char a) (lower_char b) && prefix_ci p r
  end.

Fixpoint contains_ci (pattern s : string) : bool :=
  prefix_ci pattern s
  || match s with
     | EmptyString => false
     | String _ r => contains_ci pattern r
     end.

Section Server.

(** The Qdrant service is opaque: [respond] gives the outcome of a request
    and the service afterwards. *)
Variable Server : Type.
Variable respond : Server -> Request -> (exn + unit) * Server.

Record State : Type := {
  server : Server;
  sent : list Request;        (* requests so far, oldest first *)
  console : list LogLine      (* lines so far, oldest first *)
}.

Definition M (A : Type) : Type := State -> (exn + A) * State.

Definition ret {A : Type} (a : A) : M A := fun s => (inr a, s).

Definition bind {A B : Type} (m : M A) (k : A -> M B) : M B :=
  fun s =>
    match m s with
    | (inl e, s') => (inl e, s')
    | (inr a, s') => k a s'
    end.

Definition try_catch {A : Type} (m : M A) (h : exn -> M A) : M A :=
  fun s =>
    match m s with
    | (inl e, s') => h e s'
    | (inr a, s') => (inr a, s')
    end.

(** One awaited call on [this.client]. *)
Definition request (r : Request) : M unit :=
  fun s =>
    let (outcome, srv) := respond (server s) r in
    (outcome, {| server := srv; sent := sent s ++ [r]; console := console s |}).

Definition print (l : LogLine) : M unit :=
  fun s => (inr tt, {| server := server s; sent := sent s; console := console s ++ [l] |}).

(** The arrow function [createIndex] of [ensurePayloadIndexes]. *)
Definition createIndex (collectionName field_name : string) (type : FieldType) : M unit :=
  try_catch
    (request (CreatePayloadIndex collectionName field_name type))
    (fun msg =>
       if negb (contains_ci "already exists" msg)
       then print (Warn ("[opti-llm] payload index ensure warning for " ++ field_name ++ ":") msg)
       else ret tt).

(** [ensurePayloadIndexes()]. *)
Definition ensurePayloadIndexes (collectionName : string) : M unit :=
  bind (createIndex collectionName "metadata.tenantId" keyword) (fun _ =>
  bind (createIndex collectionName "metadata.provider" keyword) (fun _ =>
  bind (createIndex collectionName "metadata.model" keyword) (fun _ =>
  bind (createIndex collectionName "metadata.userId" keyword) (fun _ =>
  bind (createIndex collectionName "expiresAt" integer) (fun _ =>
  createIndex collectionName "createdAt" integer))))).

(** [ensureCollection(vectorSize)]. *)
Definition ensureCollection (collectionName : string) (vectorSize : nat) : M unit :=
  bind
    (try_catch
       (request (GetCollection collectionName))
       (fun _ =>
          bind (request (CreateCollection collectionName vectorSize "Cosine")) (fun _ =>
          print (Log ("Created Qdrant collection: " ++ collectionName)))))
    (fun _ => ensurePayloadIndexes collectionName).

End Server.

End Admin.

(** ** Declarative counterparts of the hashing embedding *)

Module Bag.

Import JS LocalEmbedding.
Local Open Scope Z_scope.

(** The polynomial hash with multiplier 31 over the integers, without any
    wrap-around: [h * 31^n + c1 * 31^(n-1) + ... + cn]. *)
Fixpoint poly_hash (h : Z) (str : string) : Z :=
  match str with
  | EmptyString => h
  | String c r => poly_hash (31 * h + charCode c) r
  end.

(** The bucket of a token: [simpleHash(token) % dim]. *)
Definition bucket (dim : nat) (token : string) : nat :=
  Z.to_nat (simpleHash token mod Z.of_nat dim).

(** How many of the tokens fall into bucket [i]. *)
Definition count_bucket (dim i : nat) (tokens : list string) : nat :=
  length (filter (fun t => (bucket dim t =? i)%nat) tokens).

(** A token is well formed: not empty, free of separators, and in lower
    case already. *)
Fixpoint no_whitespace (s : string) : bool :=
  match s with
  | EmptyString => true
  | String c r => negb (is_whitespace c) && no_whitespace r
  end.

Definition well_formed_token (t : string) : Prop :=
  t <> EmptyString /\ no_whitespace t = true /\ toLowerCase t = t.

(** The last two lines of [embed]: division by the norm unless it is
    zero. *)
Definition normalise (vector : list Z) : list R :=
  if Rlt_dec 0 (norm_of vector)
  then map (fun v => (IZR v / norm_of vector)%R) vector
  else map IZR vector.

End Bag.

(** ** Further vocabulary for the store adapter *)

Module Terms.

Import Qdrant QdrantCache.
Local Open Scope Q_scope.

(** The object [searchParams] built by [search] from its arguments. *)
Definition search_params {Vector : Type} (vector : Vector) (limit : option nat)
  (scoreThreshold : option Q) (filter : option Filter) : SearchParams Vector :=
  {| q_vector := vector;
     q_limit := match limit with Some n => n | None => 1%nat end;
     q_score_threshold := match scoreThreshold with Some t => t | None => 8 # 10 end;
     q_with_payload := true;
     q_filter := filter |}.

(** The cached result [c] reports the answer [sp] with its score. *)
Definition reports (sp : ScoredPoint) (c : CachedResult) : Prop :=
  Measure.view_of sp c /\ cr_score c == sp_score sp.

(** The record [p] was written with the tenant, user, provider, model and
    prompt of [options]. *)
Definition written_for {Vector : Type} (options : OptiLLM.CaptureOptions)
  (p : Point Vector) : Prop :=
  metadata (pt_payload p)
  = with_prompt (OptiLLM.co_metadata options) (OptiLLM.prompt options).

End Terms.

(** ** Construction and initialisation of the engine
       (src/src/embedding.ts, lines 70-103 and 161-182) *)

Module Lifecycle.

Import JS Qdrant OptiLLM.
Local Open Scope string_scope.

(** [embedding.provider]. *)
Inductive ProviderName : Type := openai | local.

(** [OptiLLMConfig.embedding]. *)
Record EmbeddingOptions : Type := {
  eo_provider : ProviderName;
  eo_apiKey : option string;
  eo_model : option string
}.

(** The whole of [OptiLLMConfig] (src/src/types.ts); an optional key that
    is absent is [None]. *)
Record Options : Type := {
  qdrantUrl : string;
  apiKey : option string;
  basics : OptiLLMConfig;
  embedding : option EmbeddingOptions
}.

(** The arguments of [new QdrantCache(url, collectionName, apiKey)]. *)
Record CacheArgs : Type := {
  ca_url : string;
  ca_collectionName : string;
  ca_apiKey : option string
}.

(** The embedder the constructor instantiates. *)
Inductive Embedder : Type :=
| Remote : string -> string -> Embedder    (* new OpenAIEmbedding(apiKey, model) *)
| Local : nat -> Embedder.                 (* new LocalEmbedding() *)

(** The fields of a constructed [OptiLLM]. *)
Record Engine : Type := {
  e_config : Config;
  e_embedding : EmbeddingOptions;
  e_cache : CacheArgs;
  e_embedder : Embedder
}.

(** [constructor(config)]. *)
Definition constructor (config : Options) : exn + Engine :=
  let cfg := make_config (basics config) in
  let emb := match embedding config with
             | Some e => e
             | None => {| eo_provider := local; eo_apiKey := None; eo_model := None |}
             end in
  let cache := {| ca_url := qdrantUrl config;
                  ca_collectionName := collectionName cfg;
                  ca_apiKey := apiKey config |} in
  match eo_provider emb with
  | openai =>
      if negb (truthy_opt_string (eo_apiKey emb))
      then inl "OpenAI API key required for OpenAI embedding provider"
      else match eo_apiKey emb with
           | Some key =>
               inr {| e_config := cfg; e_embedding := emb; e_cache := cache;
                      e_embedder := Remote key (OpenAIEmbedding.model_of (eo_model emb)) |}
           | None => inl "OpenAI API key required for OpenAI embedding provider"
           end
  | local =>
      inr {| e_config := cfg; e_embedding := emb; e_cache := cache;
             e_embedder := Local LocalEmbedding.default_dim |}
  end.

(** [createOptiLLM(config)]. *)
Definition createOptiLLM (config : Options) : exn + Engine := constructor config.

(** The object [getStats()] resolves to. *)
Record Stats : Type := {
  st_collection : string;
  st_embedding_provider : ProviderName;
  st_threshold : option Q
}.

Definition getStats (e : Engine) : Stats :=
  {| st_collection := collectionName (e_config e);
     st_embedding_provider := eo_provider (e_embedding e);
     st_threshold := similarityThreshold (e_config e) |}.

Section Init.

(** The remote embeddings endpoint, by API key, model and input. *)
Variable create : string -> string -> string -> exn + list (list R).

(** [this.embedder] as an [EmbeddingProvider] over [number[]]. *)
Definition provider_of (e : Embedder) : EmbeddingProvider (list R) :=
  match e with
  | Remote key model => {| embed := OpenAIEmbedding.embed (create key) model |}
  | Local dim => LocalEmbedding_provider dim
  end.

Variable Server : Type.
Variable respond : Server -> Admin.Request -> (exn + unit) * Server.

(** [init()]: the test embedding fixes the vector size of the
    collection. *)
Definition init (e : Engine) : Admin.M Server unit :=
  fun s =>
    match embed (EmbeddingProvider := provider_of (e_embedder e)) "test" with
    | inl err => (inl err, s)
    | inr testVector =>
        Admin.ensureCollection respond (ca_collectionName (e_cache e))
          (length testVector) s
    end.

End Init.

End Lifecycle.

(** ** Vocabulary and a concrete service for the administrative calls *)

Module AdminTerms.

Import Qdrant Admin.
Local Open Scope string_scope.

(** The six index requests of [ensurePayloadIndexes], in order. *)
Definition index_requests (collectionName : string) : list Request :=
  [CreatePayloadIndex collectionName "metadata.tenantId" keyword;
   CreatePayloadIndex collectionName "metadata.provider" keyword;
   CreatePayloadIndex collectionName "metadata.model" keyword;
   CreatePayloadIndex collectionName "metadata.userId" keyword;
   CreatePayloadIndex collectionName "expiresAt" integer;
   CreatePayloadIndex collectionName "createdAt" integer].

(** The request is an index creation. *)
Definition is_index_request (r : Request) : bool :=
  match r with CreatePayloadIndex _ _ _ => true | _ => false end.

(** A small service: it knows whether the collection exists, with which
    vector size, and which fields are indexed; it refuses to index a field
    twice. *)
Record Toy : Type := {
  toy_size : option nat;
  toy_indexed : list string
}.

Definition toy_respond (t : Toy) (r : Request) : (exn + unit) * Toy :=
  match r with
  | GetCollection _ =>
      match toy_size t with
      | Some _ => (inr tt, t)
      | None => (inl "Not found: Collection doesn't exist!", t)
      end
  | CreateCollection _ size _ =>
      match toy_size t with
      | Some _ => (inl "Wrong input: Collection already exists!", t)
      | None => (inr tt, {| toy_size := Some size; toy_indexed := toy_indexed t |})
      end
  | CreatePayloadIndex _ field _ =>
      if existsb (String.eqb field) (toy_indexed t)
      then (inl "Index Already Exists", t)
      else (inr tt, {| toy_size := toy_size t; toy_indexed := toy_indexed t ++ [field] |})
  end.

Definition fresh_state {Server : Type} (srv : Server) : Admin.State Server :=
  {| server := srv; sent := []; console := [] |}.

End AdminTerms.

(** ** More of the concrete deployment *)

Module Scenario2.

Import JSON Qdrant Run QdrantCache OptiLLM Scenario.
Local Open Scope Q_scope.
Local Open Scope string_scope.

(** A store that can be searched but refuses every write. *)
Definition readonly_client (e : exn) : Client Vector :=
  {| client_search := fun pts ps => inr (mem_search similarity pts ps);
     client_upsert := fun _ _ => inl e;
     client_delete := fun _ _ => inl e |}.

(** The same request made by another user, through another provider and
    model, for the same tenant. *)
Definition options_of_colleague : CaptureOptions :=
  {| prompt := "What is the capital of France?";
     co_metadata := {| provider := "anthropic"; model := "claude";
                       userId := Some "bob"; tenantId := Some "acme" |};
     policy := None |}.

End Scenario2.

(** ** A concrete service for the administrative calls *)

Module Deployment.

Import Qdrant OptiLLM Admin AdminTerms Lifecycle.
Local Open Scope string_scope.

(** No collection yet. *)
Definition empty_toy : Toy := {| toy_size := None; toy_indexed := [] |}.

(** The collection exists with 384 components, and two of the six fields
    are indexed already. *)
Definition ready_toy : Toy :=
  {| toy_size := Some 384%nat; toy_indexed := ["metadata.tenantId"; "expiresAt"] |}.

(** The embeddings endpoint cannot be reached. *)
Definition offline (key model input : string) : exn + list (list R) :=
  inl "fetch failed".

(** [createOptiLLM({ qdrantUrl })] with nothing else given. *)
Definition local_options : Options :=
  {| qdrantUrl := "http://localhost:6333";
     apiKey := None;
     basics := {| in_collectionName := None;
                  in_defaultTTL := None;
                  in_similarityThreshold := None |};
     embedding := None |}.

Definition local_engine : Engine :=
  {| e_config := make_config (basics local_options);
     e_embedding := {| eo_provider := local; eo_apiKey := None; eo_model := None |};
     e_cache := {| ca_url := "http://localhost:6333";
                   ca_collectionName := "llm_cache";
                   ca_apiKey := None |};
     e_embedder := Local 384 |}.

End Deployment.

(* ================================================================== *)
(** * Properties *)
(* ================================================================== *)

(** ** The hashing embedding *)

Module LocalEmbeddingFacts.

Import JS LocalEmbedding.

Example simpleHash_test : simpleHash "test" = 3556498%Z.
Proof. reflexivity. Qed.

(** A hash that overflows 32 bits and comes out negative before [Math.abs]. *)
Example simpleHash_wraps : simpleHash "semantic caching" = 1106192539%Z.
Proof. vm_compute. reflexivity. Qed.

Example tokenize_example :
  tokenize ("  What is" ++ String (ascii_of_nat 9) "Redis  ")
  = ["what"; "is"; "redis"]%string.
Proof. reflexivity. Qed.

Example split_keeps_empty_pieces : split_ws " a  b " = [EmptyString; "a"; "b"; EmptyString]%string.
Proof. reflexivity. Qed.

Example accumulate_example :
  accumulate 8 (tokenize "what is the capital of france what")
  = [1; 1; 1; 0; 2; 1; 0; 1]%Z.
Proof. reflexivity. Qed.

(** *** Length *)

Lemma incr_at_length (i : nat) (v : list Z) : length (incr_at i v) = length v.
Proof.
  revert i; induction v as [|x r IH]; intros [|j]; simpl; auto.
Qed.

Lemma add_token_length (dim : nat) (v : list Z) (t : string) :
  length (add_token dim v t) = length v.
Proof.
  unfold add_token; destruct dim; [reflexivity | apply incr_at_length].
Qed.

Lemma accumulate_length (dim : nat) (tokens : list string) :
  length (accumulate dim tokens) = dim.
Proof.
  unfold accumulate.
  assert (G : forall v, length (fold_left (add_token dim) tokens v) = length v).
  { induction tokens as [|t r IH]; intro v; simpl; [reflexivity|].
    rewrite IH; apply add_token_length. }
  rewrite G; apply repeat_length.
Qed.

(** C8. For every dimension [dim] and every text, [embed] returns a vector
    of exactly [dim] components. *)
Theorem embed_length (dim : nat) (text : string) :
  length (embed dim text) = dim.
Proof.
  unfold embed.
  destruct (Rlt_dec 0 (norm_of (accumulate dim (tokenize text))));
    rewrite length_map; apply accumulate_length.
Qed.

(** *** Texts without tokens *)

Lemma lower_char_whitespace (c : ascii) :
  is_whitespace (lower_char c) = is_whitespace c.
Proof. destruct c as [[] [] [] [] [] [] [] []]; reflexivity. Qed.

Lemma all_whitespace_lower (s : string) :
  all_whitespace (toLowerCase s) = all_whitespace s.
Proof.
  induction s as [|c r IH]; simpl; [reflexivity|].
  now rewrite lower_char_whitespace, IH.
Qed.

Lemma split_go_blank_run (cur s : string) :
  all_whitespace s = true -> split_go true cur s = [cur].
Proof.
  induction s as [|c r IH]; simpl; [reflexivity|].
  intro H; apply andb_prop in H; destruct H as [Hc Hr].
  rewrite Hc; auto.
Qed.

Lemma split_go_blank (b : bool) (cur s : string) :
  all_whitespace s = true ->
  filter truthy_string (split_go b cur s) = filter truthy_string [cur].
Proof.
  destruct b; intro H.
  - now rewrite split_go_blank_run.
  - destruct s as [|c r]; simpl in *; [reflexivity|].
    apply andb_prop in H; destruct H as [Hc Hr].
    rewrite Hc, split_go_blank_run by assumption.
    simpl; destruct (truthy_string cur); reflexivity.
Qed.

Lemma split_go_keeps_piece (b : bool) (cur s : string) :
  truthy_string cur = true ->
  filter truthy_string (split_go b cur s) <> [].
Proof.
  revert b cur; induction s as [|c r IH]; intros b cur Hcur; simpl.
  - rewrite Hcur; discriminate.
  - destruct (is_whitespace c).
    + destruct b; [now apply IH|].
      simpl; rewrite Hcur; discriminate.
    + apply IH. destruct cur; reflexivity.
Qed.

Lemma split_go_finds_token (b : bool) (cur s : string) :
  all_whitespace s = false ->
  filter truthy_string (split_go b cur s) <> [].
Proof.
  revert b cur; induction s as [|c r IH]; intros b cur H; simpl in *.
  - discriminate.
  - destruct (is_whitespace c) eqn:Hc; simpl in H.
    + destruct b; [now apply IH|].
      simpl; destruct (truthy_string cur); [discriminate | now apply IH].
    + apply split_go_keeps_piece. destruct cur; reflexivity.
Qed.

Lemma tokenize_nil_iff (text : string) :
  tokenize text = [] <-> all_whitespace text = true.
Proof.
  unfold tokenize, split_ws; split; intro H.
  - destruct (all_whitespace text) eqn:E; [reflexivity|].
    exfalso; revert H; apply split_go_finds_token.
    now rewrite all_whitespace_lower.
  - rewrite split_go_blank by now rewrite all_whitespace_lower.
    reflexivity.
Qed.

(** *** The accumulator counts tokens *)

Import Measure.

Lemma incr_at_total (i : nat) (v : list Z) :
  (i < length v)%nat -> total (incr_at i v) = (total v + 1)%Z.
Proof.
  revert i; induction v as [|x r IH]; intros i Hi; simpl in *; [lia|].
  destruct i as [|j]; simpl; [lia|].
  rewrite IH by lia; lia.
Qed.

Lemma incr_at_nonneg (i : nat) (v : list Z) :
  Forall (fun x => 0 <= x)%Z v -> Forall (fun x => 0 <= x)%Z (incr_at i v).
Proof.
  intro H; revert i; induction H as [|x r Hx Hr IH]; intros [|j]; simpl;
    constructor; auto; lia.
Qed.

Lemma bucket_in_range (dim : nat) (token : string) :
  (0 < dim)%nat ->
  (Z.to_nat (simpleHash token mod Z.of_nat dim) < dim)%nat.
Proof.
  intro Hd.
  pose proof (Z.mod_pos_bound (simpleHash token) (Z.of_nat dim)) as B.
  lia.
Qed.

Lemma fold_add_token_inv (dim : nat) (tokens : list string) (v : list Z) :
  (0 < dim)%nat -> length v = dim -> Forall (fun x => 0 <= x)%Z v ->
  Forall (fun x => 0 <= x)%Z (fold_left (add_token dim) tokens v) /\
  total (fold_left (add_token dim) tokens v)
  = (total v + Z.of_nat (length tokens))%Z.
Proof.
  intro Hd; revert v; induction tokens as [|t r IH]; intros v Hlen Hpos.
  - simpl; split; [assumption | lia].
  - cbn [fold_left length].
    assert (Hstep : add_token dim v t
                    = incr_at (Z.to_nat (simpleHash t mod Z.of_nat dim)) v).
    { unfold add_token; destruct dim; [lia | reflexivity]. }
    destruct (IH (add_token dim v t)) as [P T].
    + now rewrite add_token_length.
    + rewrite Hstep; now apply incr_at_nonneg.
    + split; [assumption|].
      rewrite T, Hstep, incr_at_total; [lia|].
      rewrite Hlen; now apply bucket_in_range.
Qed.

Lemma total_repeat_zero (n : nat) : total (repeat 0%Z n) = 0%Z.
Proof. induction n; simpl; auto. Qed.

Lemma accumulate_counts (dim : nat) (tokens : list string) :
  (0 < dim)%nat ->
  Forall (fun x => 0 <= x)%Z (accumulate dim tokens) /\
  total (accumulate dim tokens) = Z.of_nat (length tokens).
Proof.
  intro Hd; unfold accumulate.
  destruct (@fold_add_token_inv dim tokens (repeat 0%Z dim) Hd) as [P T].
  - apply repeat_length.
  - clear; induction dim; simpl; constructor; auto; lia.
  - split; [assumption|]. rewrite T, total_repeat_zero; lia.
Qed.

Lemma total_le_squares (v : list Z) :
  Forall (fun x => 0 <= x)%Z v -> (total v <= squares v)%Z.
Proof.
  induction 1 as [|x r Hx Hr IH]; simpl; [lia | nia].
Qed.

(** *** The norm *)

Local Open Scope R_scope.

Lemma fold_squares_from (v : list Z) (a : R) :
  fold_left (fun sum val => sum + IZR val * IZR val) v a = a + IZR (squares v).
Proof.
  revert a; induction v as [|x r IH]; intro a; simpl.
  - lra.
  - rewrite IH, plus_IZR, mult_IZR; lra.
Qed.

Lemma sum_squares_IZR (v : list Z) : sum_squares v = IZR (squares v).
Proof. unfold sum_squares; rewrite fold_squares_from; lra. Qed.

Lemma norm_of_nonneg (v : list Z) : 0 <= norm_of v.
Proof. apply sqrt_pos. Qed.

Lemma norm_of_no_token (dim : nat) : norm_of (accumulate dim []) = 0.
Proof.
  unfold norm_of; rewrite sum_squares_IZR.
  replace (squares (accumulate dim [])) with 0%Z; [apply sqrt_0|].
  unfold accumulate; simpl. induction dim; simpl; auto.
Qed.

Lemma norm_of_tokens_positive (dim : nat) (tokens : list string) :
  (0 < dim)%nat -> tokens <> [] -> 0 < norm_of (accumulate dim tokens).
Proof.
  intros Hd Hne.
  destruct (accumulate_counts tokens Hd) as [P T].
  pose proof (total_le_squares P) as L.
  unfold norm_of; rewrite sum_squares_IZR.
  apply sqrt_lt_R0, IZR_lt.
  destruct tokens; [congruence | simpl in T; lia].
Qed.

Lemma scaled_squares (v : list Z) (n : R) :
  n <> 0 ->
  fold_right (fun x acc => x * x + acc) 0 (map (fun x => IZR x / n) v)
  = IZR (squares v) / (n * n).
Proof.
  intro Hn; induction v as [|x r IH]; simpl.
  - field; assumption.
  - rewrite IH, plus_IZR, mult_IZR. field; assumption.
Qed.

Lemma normalised_has_unit_norm (v : list Z) :
  0 < norm_of v ->
  euclidean_norm (map (fun x => IZR x / norm_of v) v) = 1.
Proof.
  intro Hpos; unfold euclidean_norm.
  rewrite scaled_squares by lra.
  unfold norm_of in *.
  rewrite sqrt_sqrt.
  - rewrite <- sum_squares_IZR.
    assert (0 < sum_squares v) by (apply sqrt_lt_0_alt; rewrite sqrt_0; exact Hpos).
    replace (sum_squares v / sum_squares v) with 1 by (field; lra).
    apply sqrt_1.
  - destruct (Rle_dec 0 (sum_squares v)) as [H|H]; [exact H|].
    exfalso. rewrite sqrt_neg_0 in Hpos; lra.
Qed.

(** C9. For a positive dimension and every text: the text has no token
    exactly when it is empty or whitespace-only, and then the output is
    the all-zero vector; a text with a token gives an output of Euclidean
    norm 1; the accumulator is divided by its norm exactly when that norm
    is not zero. *)
Theorem embed_zero_or_unit (dim : nat) (text : string) :
  (0 < dim)%nat ->
  (tokenize text = [] <-> all_whitespace text = true) /\
  (tokenize text = [] -> embed dim text = repeat 0 dim) /\
  (tokenize text <> [] -> euclidean_norm (embed dim text) = 1) /\
  (norm_of (accumulate dim (tokenize text)) <> 0 ->
     embed dim text
     = map (fun v => IZR v / norm_of (accumulate dim (tokenize text)))
           (accumulate dim (tokenize text))) /\
  (norm_of (accumulate dim (tokenize text)) = 0 ->
     embed dim text = map IZR (accumulate dim (tokenize text))).
Proof.
  intro Hd.
  split; [apply tokenize_nil_iff|].
  split; [|split; [|split]].
  - intro Hnil; unfold embed; rewrite Hnil.
    destruct (Rlt_dec 0 (norm_of (accumulate dim []))) as [H|_].
    + rewrite norm_of_no_token in H; lra.
    + unfold accumulate; simpl. apply map_repeat.
  - intro Hne; unfold embed.
    pose proof (norm_of_tokens_positive Hd Hne) as Hpos.
    destruct (Rlt_dec 0 (norm_of (accumulate dim (tokenize text)))) as [_|H];
      [|contradiction].
    now apply normalised_has_unit_norm.
  - intro Hnz; unfold embed.
    destruct (Rlt_dec 0 (norm_of (accumulate dim (tokenize text)))) as [_|H];
      [reflexivity|].
    pose proof (norm_of_nonneg (accumulate dim (tokenize text))); lra.
  - intro Hz; unfold embed.
    destruct (Rlt_dec 0 (norm_of (accumulate dim (tokenize text)))) as [H|_];
      [lra | reflexivity].
Qed.

(** The property at the text of the specification's example, with 8
    buckets. *)
Lemma embed_zero_or_unit_witness :
  (0 < 8)%nat /\
  euclidean_norm (embed 8 "What is the capital of France?") = 1.
Proof.
  split; [lia|].
  apply (@embed_zero_or_unit 8 "What is the capital of France?"); [lia|].
  vm_compute; discriminate.
Defined.

End LocalEmbeddingFacts.

(** ** JSON text *)

Module JSONFacts.

Import JSON.

Lemma append_length (a b : string) :
  String.length (a ++ b) = (String.length a + String.length b)%nat.
Proof. induction a as [|c r IH]; simpl; auto. Qed.

Lemma escape_char_length (c : ascii) : (1 <= String.length (escape_char c))%nat.
Proof.
  unfold escape_char.
  repeat match goal with |- context [if ?b then _ else _] => destruct b end;
    simpl; lia.
Qed.

Lemma escape_length (s : string) : (String.length s <= String.length (escape s))%nat.
Proof.
  induction s as [|c r IH]; simpl; [lia|].
  rewrite append_length. pose proof (escape_char_length c). lia.
Qed.

Lemma stringify_is_not_identity (p : json) : JStr (stringify p) <> p.
Proof.
  destruct p as [| | |s|]; try discriminate.
  intro H; inversion H as [E]. apply (f_equal String.length) in E.
  simpl in E. unfold quote in E. simpl in E. rewrite append_length in E.
  pose proof (escape_length s). simpl in E. lia.
Qed.

End JSONFacts.

(** ** The reference store honors the contract *)

Module ReferenceStore.

Import Qdrant.
Local Open Scope Q_scope.

Section Reference.

Variable Vector : Type.
Variable similarity : Vector -> Vector -> Q.

Lemma insert_desc_in (x y : ScoredPoint) (l : list ScoredPoint) :
  In y (insert_desc x l) -> y = x \/ In y l.
Proof.
  induction l as [|z r IH]; simpl.
  - intros [<-|[]]; auto.
  - destruct (Qlt_bool (sp_score z) (sp_score x)); simpl.
    + intros [<-|[<-|H]]; auto.
    + intros [<-|H]; auto. destruct (IH H); auto.
Qed.

Lemma sort_desc_in (y : ScoredPoint) (l : list ScoredPoint) :
  In y (sort_desc l) -> In y l.
Proof.
  induction l as [|x r IH]; simpl; [auto|].
  intro H; apply insert_desc_in in H; destruct H as [<-|H]; auto.
Qed.

Lemma firstn_subset {A : Type} (n : nat) (l : list A) (x : A) :
  In x (firstn n l) -> In x l.
Proof.
  revert l; induction n as [|n IH]; intros [|y r]; simpl; try contradiction.
  intros [<-|H]; auto.
Qed.

Lemma mem_search_sound (pts : list (Point Vector)) (ps : SearchParams Vector)
  (sp : ScoredPoint) :
  In sp (mem_search similarity pts ps) ->
  exists p, In p pts /\ sp = score_point similarity (q_vector ps) p /\
            matches_opt (q_filter ps) (pt_payload p) = true /\
            q_score_threshold ps <= sp_score sp.
Proof.
  unfold mem_search; intro H.
  apply firstn_subset, sort_desc_in, filter_In in H. destruct H as (H & Hs).
  apply in_map_iff in H. destruct H as (p & <- & Hp).
  apply filter_In in Hp. destruct Hp as (Hp & Hf).
  exists p; repeat split; auto. now apply Qle_bool_iff.
Qed.

Lemma mem_client_honors : honors_contract (mem_client similarity).
Proof.
  split; simpl.
  - intros pts ps res H; inversion H; subst res. apply Forall_forall; intros sp Hsp.
    destruct (mem_search_sound _ _ _ Hsp) as (p & Hp & -> & _).
    exists p; split; [assumption | split; reflexivity].
  - intros pts ps res H; inversion H; subst res. apply Forall_forall; intros sp Hsp.
    destruct (mem_search_sound _ _ _ Hsp) as (p & Hp & -> & Hf & _). exact Hf.
  - intros pts ps res H; inversion H; subst res. apply Forall_forall; intros sp Hsp.
    destruct (mem_search_sound _ _ _ Hsp) as (p & Hp & _ & _ & Ht). exact Ht.
  - intros pts ps res H; inversion H; subst res. apply firstn_le_length.
  - intros pts p pts' H; inversion H; reflexivity.
  - intros pts f pts' H; inversion H; reflexivity.
Qed.

End Reference.

End ReferenceStore.

(** ** The store adapter and the engine *)

Module EngineFacts.

Import JS JSON Qdrant Run QdrantCache OptiLLM Measure.
Local Open Scope Q_scope.

Lemma Qlt_bool_iff (a b : Q) : Qlt_bool a b = true <-> a < b.
Proof.
  unfold Qlt_bool; rewrite negb_true_iff; split; intro H.
  - apply Qnot_le_lt; intro L. apply Qle_bool_iff in L; congruence.
  - destruct (Qle_bool b a) eqn:E; [|reflexivity].
    apply Qle_bool_iff in E. exfalso; now apply (Qlt_not_le a b).
Qed.

Lemma Qlt_bool_false_iff (a b : Q) : Qlt_bool a b = false <-> b <= a.
Proof.
  unfold Qlt_bool; rewrite negb_false_iff. apply Qle_bool_iff.
Qed.

Section Facts.

Variable Vector : Type.
Variable embedder : EmbeddingProvider Vector.
Variable client : Client Vector.
Variable config : Config.

Local Abbreviation World := (Run.World Vector).

Lemma untouched_refl (w : World) : untouched w w.
Proof. unfold untouched; repeat split; auto. Qed.

Lemma untouched_trans (w1 w2 w3 : World) :
  untouched w1 w2 -> untouched w2 w3 -> untouched w1 w3.
Proof.
  unfold untouched; intros (A1 & A2 & A3 & A4 & A5 & A6) (B1 & B2 & B3 & B4 & B5 & B6).
  repeat split; try congruence; lia.
Qed.

Lemma Date_now_run (w : World) :
  exists w', Date_now w = (inr (clock w (clock_reads w)), w') /\
             untouched w w' /\ clock_reads w' = S (clock_reads w).
Proof.
  eexists; split; [reflexivity|]. unfold untouched; simpl; repeat split; auto.
Qed.

(** *** [search] *)

Lemma to_cached_run (sp : ScoredPoint) (w : World) :
  exists c w', to_cached sp w = (inr c, w') /\ untouched w w' /\ view_of sp c.
Proof.
  unfold to_cached, bind.
  destruct (Qeq_bool (createdAt (sp_payload sp)) 0) eqn:E.
  - do 2 eexists; split; [reflexivity|]. split.
    + unfold untouched; simpl; repeat split; auto.
    + unfold view_of; simpl; repeat split; auto.
      intro N; exfalso; apply N. now apply Qeq_bool_iff.
  - do 2 eexists; split; [reflexivity|]. split.
    + apply untouched_refl.
    + unfold view_of; simpl; repeat split; auto.
Qed.

Lemma mapM_to_cached_run (res : list ScoredPoint) (w : World) :
  exists cs w', mapM (@to_cached Vector) res w = (inr cs, w') /\
                untouched w w' /\ Forall2 view_of res cs.
Proof.
  revert w; induction res as [|sp r IH]; intro w.
  - exists [], w; repeat split; auto; apply untouched_refl.
  - destruct (to_cached_run sp w) as (c & w1 & E1 & U1 & V1).
    destruct (IH w1) as (cs & w2 & E2 & U2 & V2).
    exists (c :: cs), w2.
    cbn [mapM]; unfold bind at 1; rewrite E1.
    unfold bind at 1; rewrite E2.
    split; [reflexivity|]. split; [eapply untouched_trans; eauto | now constructor].
Qed.

Lemma search_run (vector : Vector) (limit : nat) (threshold : option Q)
  (f : Filter) (w : World) :
  let ps := {| q_vector := vector; q_limit := limit;
               q_score_threshold := match threshold with Some t => t | None => 8 # 10 end;
               q_with_payload := true; q_filter := Some f |} in
  match client_search client (points w) ps with
  | inl e => search client vector (Some limit) threshold (Some f) w = (inl e, w)
  | inr res =>
      exists cs w', search client vector (Some limit) threshold (Some f) w = (inr cs, w') /\
                    untouched w w' /\ Forall2 view_of res cs
  end.
Proof.
  intro ps; unfold search, try_catch, bind, request_search; fold ps.
  destruct (client_search client (points w) ps) as [e|res] eqn:E.
  - reflexivity.
  - destruct (mapM_to_cached_run res w) as (cs & w' & E' & U & V).
    exists cs, w'; rewrite E'; auto.
Qed.

(** What is known after lines 109-125 of [capture]. *)
Lemma capture_search_run (options : CaptureOptions) (w : World) :
  match capture_search embedder client config options w with
  | (inl e, w1) => w1 = w
  | (inr (vector, cs), w1) =>
      untouched w w1 /\
      embed (prompt options) = inr vector /\
      exists res,
        client_search client (points w) (capture_params config options vector) = inr res /\
        Forall2 view_of res cs
  end.
Proof.
  unfold capture_search, bind, lift.
  destruct (embed (prompt options)) as [e|vector]; [reflexivity|].
  pose proof (@search_run vector 1%nat
                (nullish (policy_minSimilarity (policy options)) (similarityThreshold config))
                (build_filter (co_metadata options)) w) as S.
  cbv zeta in S. fold (capture_params config options vector) in S.
  destruct (client_search client (points w) (capture_params config options vector))
    as [e|res] eqn:E.
  - rewrite S; reflexivity.
  - destruct S as (cs & w' & E' & U & V). rewrite E'.
    unfold ret. repeat split; try apply U. eauto.
Qed.

(** *** [store] *)

Lemma store_run (vector : Vector) (response : string) (md : StoredMetadata)
  (ttl : option Q) (w : World) :
  let q := stored_point (uuids w (uuids_drawn w)) (clock w (clock_reads w))
                        vector response md ttl in
  match client_upsert client (points w) q with
  | inl e => exists w', store client vector response md ttl w = (inl e, w') /\
                        points w' = points w /\ llm_calls w' = llm_calls w
  | inr pts => exists w', store client vector response md ttl w = (inr (pt_id q), w') /\
                          points w' = pts /\ llm_calls w' = llm_calls w
  end.
Proof.
  intro q. unfold store, bind, uuidv4, Date_now, request_upsert; simpl.
  assert (Q : {| pt_id := uuids w (uuids_drawn w); pt_vector := vector;
                 pt_payload :=
                   {| response := response; metadata := md;
                      createdAt := clock w (clock_reads w);
                      expiresAt :=
                        if truthy_opt_number ttl
                        then match ttl with
                             | Some t => Some (clock w (clock_reads w) + t * 1000)
                             | None => None
                             end
                        else None |} |} = q).
  { unfold q, stored_point, truthy_opt_number.
    destruct ttl as [t|]; [destruct (Qeq_bool t 0)|]; reflexivity. }
  rewrite Q.
  destruct (client_upsert client (points w) q) as [e|pts];
    eexists; (split; [reflexivity|]); simpl; auto.
Qed.

(** *** The two halves of [capture] *)

Lemma capture_hit_run (options : CaptureOptions) (results : list CachedResult)
  (w : World) :
  exists r w',
    capture_hit config options results w = (inr r, w') /\
    untouched w w' /\
    match results with
    | [] => r = None /\ w' = w
    | found :: _ =>
        clock_reads w' = S (clock_reads w) /\
        r = if fresh (resolved_maxAge config options)
                     ((clock w (clock_reads w) - cr_createdAt found) / 1000)
            then Some (hit_answer found) else None
    end.
Proof.
  destruct results as [|found rest]; simpl.
  - exists None, w; repeat split; auto; apply untouched_refl.
  - unfold bind, Date_now; simpl. fold (resolved_maxAge config options).
    destruct (fresh (resolved_maxAge config options)
                ((clock w (clock_reads w) - cr_createdAt found) / 1000));
      do 2 eexists; (split; [reflexivity|]);
      unfold untouched; simpl; repeat split; auto.
Qed.

Lemma capture_miss_throws (options : CaptureOptions) (vector : Vector)
  (e : exn) (w : World) :
  exists w', capture_miss client config options vector (inl e) w = (inl e, w') /\
             points w' = points w /\ llm_calls w' = S (llm_calls w).
Proof.
  eexists; split; [reflexivity|]; simpl; auto.
Qed.

Lemma capture_miss_returns (options : CaptureOptions) (vector : Vector)
  (p : json) (w : World) :
  let q := stored_point (uuids w (uuids_drawn w)) (clock w (clock_reads w)) vector
             (stringify p) (with_prompt (co_metadata options) (prompt options))
             (resolved_maxAge config options) in
  match client_upsert client (points w) q with
  | inl e => exists w', capture_miss client config options vector (inr p) w = (inl e, w') /\
                        points w' = points w /\ llm_calls w' = S (llm_calls w)
  | inr pts => exists w', capture_miss client config options vector (inr p) w
                          = (inr (miss_answer p), w') /\
                          points w' = pts /\ llm_calls w' = S (llm_calls w)
  end.
Proof.
  intro q.
  set (w1 := {| points := points w; clock := clock w; clock_reads := clock_reads w;
                uuids := uuids w; uuids_drawn := uuids_drawn w;
                llm_calls := S (llm_calls w) |}).
  pose proof (@store_run vector (stringify p)
                (with_prompt (co_metadata options) (prompt options))
                (resolved_maxAge config options) w1) as S.
  cbv zeta in S. change (stored_point _ _ _ _ _ _) with q in S.
  change (points w1) with (points w) in S.
  destruct (client_upsert client (points w) q) as [e|pts];
    destruct S as (w' & E & P & L); exists w';
    unfold capture_miss, bind, invoke;
    fold (resolved_maxAge config options); fold w1; rewrite E;
    repeat split; auto.
Qed.

Lemma capture_unfold (options : CaptureOptions) (llmCall : exn + json) (w : World) :
  capture embedder client config options llmCall w
  = match capture_search embedder client config options w with
    | (inl e, w1) => (inl e, w1)
    | (inr (vector, results), w1) =>
        match capture_hit config options results w1 with
        | (inl e, w2) => (inl e, w2)
        | (inr (Some answer), w2) => (inr answer, w2)
        | (inr None, w2) => capture_miss client config options vector llmCall w2
        end
    end.
Proof.
  unfold capture, bind.
  destruct (capture_search embedder client config options w) as [[e|[vector results]] w1];
    [reflexivity|].
  destruct (capture_hit config options results w1) as [[e|[answer|]] w2]; reflexivity.
Qed.

Lemma fresh_true_iff (maxAge : option Q) (age : Q) :
  fresh maxAge age = true <->
  maxAge = None \/ exists m, maxAge = Some m /\ (m == 0 \/ age < m).
Proof.
  unfold fresh, truthy_opt_number. destruct maxAge as [m|]; simpl.
  - rewrite orb_true_iff, negb_true_iff, negb_false_iff, Qeq_bool_iff, Qlt_bool_iff.
    split.
    + intro H; right; exists m; auto.
    + intros [H|(m' & E & H)]; [discriminate|]. now inversion E; subst.
  - split; auto.
Qed.

Lemma upsert_point_in (pts : list (Point Vector)) (q : Point Vector) :
  In q (upsert_point pts q).
Proof.
  unfold upsert_point.
  destruct (existsb (fun x => String.eqb (pt_id x) (pt_id q)) pts) eqn:E.
  - apply existsb_exists in E; destruct E as (x & Hx & Hid).
    apply in_map_iff; exists x; rewrite Hid; auto.
  - apply in_or_app; right; simpl; auto.
Qed.

(** C1. When the search of [capture] returns a candidate and the resolved
    [maxAge] is unset, zero, or larger than the age of the candidate,
    [capture] returns the stored response with [cached = true] and
    [cost_saved = true]; the producer is not invoked and the collection is
    not written. *)
Theorem capture_fresh_hit (options : CaptureOptions) (llmCall : exn + json)
  (w w1 : World) (vector : Vector) (found : CachedResult) (rest : list CachedResult) :
  capture_search embedder client config options w = (inr (vector, found :: rest), w1) ->
  (resolved_maxAge config options = None \/
   exists m, resolved_maxAge config options = Some m /\
             (m == 0 \/ (clock w1 (clock_reads w1) - cr_createdAt found) / 1000 < m)) ->
  exists w2,
    capture embedder client config options llmCall w
    = (inr {| cr_payload := JStr (cr_response found);
              cached := true;
              cost_saved := Some true |}, w2) /\
    llm_calls w2 = llm_calls w /\
    points w2 = points w.
Proof.
  intros Hs Hfresh.
  pose proof (capture_search_run options w) as R; rewrite Hs in R.
  destruct R as (U & _).
  destruct (capture_hit_run options (found :: rest) w1) as (r & w2 & E & U2 & _ & Hr).
  apply fresh_true_iff in Hfresh; rewrite Hfresh in Hr; subst r.
  exists w2. rewrite capture_unfold, Hs, E.
  destruct (untouched_trans U U2) as (P & L & _).
  split; [reflexivity | split; assumption].
Qed.

(** C2. When the search returns a candidate whose age is at least the
    resolved non-zero [maxAge], [capture] takes the miss path: whatever the
    producer does it is invoked exactly once and no cached answer is
    returned; when it returns [p] and the upsert succeeds, [capture] returns
    [p] with [cached = false] and the collection holds the new record. *)
Theorem capture_stale_miss (options : CaptureOptions) (w w1 : World)
  (vector : Vector) (found : CachedResult) (rest : list CachedResult) (m : Q) :
  capture_search embedder client config options w = (inr (vector, found :: rest), w1) ->
  resolved_maxAge config options = Some m ->
  ~ m == 0 ->
  m <= (clock w1 (clock_reads w1) - cr_createdAt found) / 1000 ->
  (forall llmCall, exists r w2,
      capture embedder client config options llmCall w = (r, w2) /\
      llm_calls w2 = S (llm_calls w) /\
      forall answer, r = inr answer -> cached answer = false) /\
  (forall p pts,
      client_upsert client (points w)
        (stored_point (uuids w (uuids_drawn w)) (clock w1 (S (clock_reads w1))) vector
           (stringify p) (with_prompt (co_metadata options) (prompt options)) (Some m))
      = inr pts ->
      exists w2,
        capture embedder client config options (inr p) w
        = (inr {| cr_payload := p; cached := false; cost_saved := None |}, w2) /\
        llm_calls w2 = S (llm_calls w) /\
        points w2 = pts /\
        (honors_contract client ->
         In (stored_point (uuids w (uuids_drawn w)) (clock w1 (S (clock_reads w1))) vector
               (stringify p) (with_prompt (co_metadata options) (prompt options)) (Some m))
            (points w2))).
Proof.
  intros Hs Hm Hnz Hold.
  pose proof (capture_search_run options w) as R; rewrite Hs in R.
  destruct R as (U & _).
  destruct (capture_hit_run options (found :: rest) w1) as (r & w2 & E & U2 & Hreads & Hr).
  assert (Hstale : fresh (resolved_maxAge config options)
                     ((clock w1 (clock_reads w1) - cr_createdAt found) / 1000) = false).
  { destruct (fresh _ _) eqn:F; [|reflexivity].
    apply fresh_true_iff in F. destruct F as [F|(m' & F & [Z|L])]; [congruence| |];
      rewrite Hm in F; inversion F; subst m'; [contradiction|].
    exfalso; now apply (Qlt_not_le _ _ L). }
  rewrite Hstale in Hr; subst r.
  destruct (untouched_trans U U2) as (P & L & Uu & Ud & Uc & _).
  destruct U as (_ & _ & _ & _ & Uc1 & _).
  destruct U2 as (_ & _ & _ & _ & Uc2 & _).
  split.
  - intros [e|p].
    + destruct (capture_miss_throws options vector e w2) as (w3 & E3 & P3 & L3).
      exists (inl e), w3. rewrite capture_unfold, Hs, E, E3.
      split; [reflexivity|]. split; [congruence | discriminate].
    + pose proof (capture_miss_returns options vector p w2) as M; cbv zeta in M.
      destruct (client_upsert client (points w2) _) as [e|pts];
        destruct M as (w3 & E3 & P3 & L3).
      * exists (inl e), w3. rewrite capture_unfold, Hs, E, E3.
        split; [reflexivity|]. split; [congruence | discriminate].
      * exists (inr (miss_answer p)), w3. rewrite capture_unfold, Hs, E, E3.
        split; [reflexivity|]. split; [congruence|].
        intros answer A; inversion A; reflexivity.
  - intros p pts Hup.
    pose proof (capture_miss_returns options vector p w2) as M; cbv zeta in M.
    rewrite Hm, P, Uu, Ud, Uc2, Hreads in M. rewrite Hup in M.
    destruct M as (w3 & E3 & P3 & L3).
    exists w3. rewrite capture_unfold, Hs, E, E3.
    split; [reflexivity|]. split; [congruence|]. split; [assumption|].
    intro C. rewrite P3, (upsert_done C _ _ Hup). apply upsert_point_in.
Qed.

(** C5. When the producer fails, the collection after [capture] is the
    collection before it; and on a miss (no candidate, or a stale one) the
    producer is invoked once and its error is the error of [capture]. *)
Theorem capture_producer_failure (options : CaptureOptions) (e : exn) (w : World) :
  points (snd (capture embedder client config options (inl e) w)) = points w /\
  forall vector results w1 w2,
    capture_search embedder client config options w = (inr (vector, results), w1) ->
    capture_hit config options results w1 = (inr None, w2) ->
    exists w3,
      capture embedder client config options (inl e) w = (inl e, w3) /\
      points w3 = points w /\
      llm_calls w3 = S (llm_calls w).
Proof.
  split.
  - rewrite capture_unfold.
    pose proof (capture_search_run options w) as R.
    destruct (capture_search embedder client config options w)
      as [[e1|[vector results]] w1]; [now subst|].
    destruct R as (U & _).
    destruct (capture_hit_run options results w1) as (r & w2 & E & U2 & _).
    rewrite E. destruct (untouched_trans U U2) as (P & _).
    destruct r as [answer|]; [exact P|].
    destruct (capture_miss_throws options vector e w2) as (w3 & E3 & P3 & _).
    rewrite E3; simpl; congruence.
  - intros vector results w1 w2 Hs Hh.
    pose proof (capture_search_run options w) as R; rewrite Hs in R.
    destruct R as (U & _).
    destruct (capture_hit_run options results w1) as (r & w2' & E & U2 & _).
    rewrite Hh in E; inversion E; subst r w2'.
    destruct (untouched_trans U U2) as (P & L & _).
    destruct (capture_miss_throws options vector e w2) as (w3 & E3 & P3 & L3).
    exists w3. rewrite capture_unfold, Hs, Hh, E3.
    split; [reflexivity|]. split; congruence.
Qed.

(** *** Expiry metadata *)

(** C7 (amended). The record created by a successful [store] has
    [createdAt] equal to the write time [now]; it has
    [expiresAt = now + ttl * 1000] when a TTL is supplied and is not zero,
    and no [expiresAt] when the TTL is absent or zero; for a positive TTL
    [expiresAt] is strictly greater than [createdAt]. *)
Theorem store_sets_expiry (vector : Vector) (response : string)
  (md : StoredMetadata) (ttl : option Q) (w w' : World) (id : string) :
  honors_contract client ->
  store client vector response md ttl w = (inr id, w') ->
  exists p,
    In p (points w') /\ pt_id p = id /\ pt_vector p = vector /\
    Qdrant.response (pt_payload p) = response /\
    metadata (pt_payload p) = md /\
    createdAt (pt_payload p) = clock w (clock_reads w) /\
    expiresAt (pt_payload p)
    = match ttl with
      | Some t => if Qeq_bool t 0 then None
                  else Some (clock w (clock_reads w) + t * 1000)
      | None => None
      end /\
    (forall t, ttl = Some t -> 0 < t ->
       exists e, expiresAt (pt_payload p) = Some e /\ createdAt (pt_payload p) < e).
Proof.
  intros C Hs.
  pose proof (store_run vector response md ttl w) as R; cbv zeta in R.
  set (q := stored_point (uuids w (uuids_drawn w)) (clock w (clock_reads w))
              vector response md ttl) in *.
  destruct (client_upsert client (points w) q) as [e|pts] eqn:U;
    destruct R as (w2 & E & P & _); rewrite Hs in E; inversion E; subst.
  exists q. split.
  - rewrite (upsert_done C _ _ U). apply upsert_point_in.
  - repeat split; try reflexivity.
    intros t Ht Hpos; subst ttl; simpl.
    assert (Z : Qeq_bool t 0 = false).
    { destruct (Qeq_bool t 0) eqn:Zt; [|reflexivity].
      apply Qeq_bool_iff in Zt. rewrite Zt in Hpos. now apply Qlt_irrefl in Hpos. }
    rewrite Z. eexists; split; [reflexivity|].
    rewrite <- (Qplus_0_r (clock w (clock_reads w))) at 1.
    apply Qplus_lt_r.
    setoid_replace 0 with (0 * 1000) by ring.
    apply Qmult_lt_compat_r; [reflexivity | assumption].
Qed.

(** *** The expiry sweep *)

Lemma sweep_filter_is_expired_before (now : Q) (p : Point Vector) :
  filter_matches {| must := [RangeLt "expiresAt" now] |} (pt_payload p)
  = expired_before now p.
Proof.
  unfold filter_matches, expired_before; cbn [must forallb condition_holds].
  change (number_field "expiresAt" (pt_payload p)) with (expiresAt (pt_payload p)).
  destruct (expiresAt (pt_payload p)); [apply andb_true_r | reflexivity].
Qed.

(** C6 (amended). [cleanup] never fails; when the delete request succeeds
    it removes exactly the records whose [expiresAt] is strictly less than
    the current time and keeps every other record (those without
    [expiresAt] included) as it is; when the request fails the collection is
    unchanged. *)
Theorem cleanup_sweeps_strictly_expired (w : World) :
  fst (QdrantCache.cleanup client w) = inr tt /\
  (honors_contract client ->
   forall pts,
     client_delete client (points w)
       {| must := [RangeLt "expiresAt" (clock w (clock_reads w))] |} = inr pts ->
     points (snd (QdrantCache.cleanup client w))
     = filter (fun p => negb (expired_before (clock w (clock_reads w)) p)) (points w)) /\
  (forall e,
     client_delete client (points w)
       {| must := [RangeLt "expiresAt" (clock w (clock_reads w))] |} = inl e ->
     points (snd (QdrantCache.cleanup client w)) = points w).
Proof.
  unfold QdrantCache.cleanup, bind, try_catch, Date_now, request_delete; simpl.
  destruct (client_delete client (points w)
              {| must := [RangeLt "expiresAt" (clock w (clock_reads w))] |})
    as [e|pts] eqn:D; simpl.
  - split; [reflexivity|]. split; [intros _ pts' H; discriminate | reflexivity].
  - split; [reflexivity|]. split; [|intros e H; discriminate].
    intros C pts' H; inversion H; subst pts'.
    rewrite (delete_done C _ _ D). unfold delete_matching.
    apply filter_ext; intro p. now rewrite sweep_filter_is_expired_before.
Qed.

(** *** Tenant scoping *)

Lemma upsert_point_new (pts : list (Point Vector)) (p q : Point Vector) :
  In p (upsert_point pts q) -> In p pts \/ p = q.
Proof.
  unfold upsert_point.
  destruct (existsb (fun x => String.eqb (pt_id x) (pt_id q)) pts).
  - intro H; apply in_map_iff in H; destruct H as (x & Hx & Hin).
    destruct (String.eqb (pt_id x) (pt_id q)); subst; auto.
  - intro H; apply in_app_or in H; destruct H as [H|[H|[]]]; auto.
Qed.

(** A record that [capture] adds carries the tenant of the caller. *)
Lemma capture_writes_own_tenant (options : CaptureOptions) (llmCall : exn + json)
  (w : World) (p : Point Vector) :
  honors_contract client ->
  In p (points (snd (capture embedder client config options llmCall w))) ->
  ~ In p (points w) ->
  sm_tenantId (metadata (pt_payload p)) = tenantId (co_metadata options).
Proof.
  intros C Hin Hnew. rewrite capture_unfold in Hin.
  pose proof (capture_search_run options w) as R.
  destruct (capture_search embedder client config options w)
    as [[e|[vector results]] w1].
  - subst w1; contradiction.
  - destruct R as (U & _).
    destruct (capture_hit_run options results w1) as (r & w2 & E & U2 & _).
    rewrite E in Hin. destruct (untouched_trans U U2) as (P & _).
    destruct r as [answer|]; [simpl in Hin; rewrite P in Hin; contradiction|].
    destruct llmCall as [e|p0].
    + destruct (capture_miss_throws options vector e w2) as (w3 & E3 & P3 & _).
      rewrite E3 in Hin; simpl in Hin. rewrite P3, P in Hin; contradiction.
    + pose proof (capture_miss_returns options vector p0 w2) as M; cbv zeta in M.
      destruct (client_upsert client (points w2) _) as [e|pts] eqn:Up;
        destruct M as (w3 & E3 & P3 & _); rewrite E3 in Hin; simpl in Hin.
      * rewrite P3, P in Hin; contradiction.
      * rewrite P3, (upsert_done C _ _ Up) in Hin.
        apply upsert_point_new in Hin. destruct Hin as [Hin|Hin].
        -- rewrite P in Hin; contradiction.
        -- subst p; reflexivity.
Qed.

Lemma Forall2_pick {A B : Type} (R : A -> B -> Prop) (l : list A) (l' : list B) (y : B) :
  Forall2 R l l' -> In y l' -> exists x, In x l /\ R x y.
Proof.
  induction 1 as [|x y' l l' Hxy _ IH]; simpl; [contradiction|].
  intros [<-|Hy]; [exists x; auto|].
  destruct (IH Hy) as (x' & Hx' & Hr); exists x'; auto.
Qed.

Lemma build_filter_tenant (md : Metadata) (t : string) :
  tenantId md = Some t -> t <> EmptyString ->
  build_filter md = {| must := [Match "metadata.tenantId" t] |}.
Proof.
  intros H Ht; unfold build_filter; rewrite H; simpl.
  destruct t; [congruence | reflexivity].
Qed.

(** Every candidate handed to [capture] for a non-empty tenant carries
    that tenant. *)
Lemma capture_search_scoped (options : CaptureOptions) (t : string)
  (w w1 : World) (vector : Vector) (results : list CachedResult) (c : CachedResult) :
  honors_contract client ->
  tenantId (co_metadata options) = Some t -> t <> EmptyString ->
  capture_search embedder client config options w = (inr (vector, results), w1) ->
  In c results ->
  sm_tenantId (cr_metadata c) = Some t.
Proof.
  intros C Ht Hne Hs Hc.
  pose proof (capture_search_run options w) as R; rewrite Hs in R.
  destruct R as (_ & _ & res & Hres & V).
  destruct (@Forall2_pick _ _ _ _ _ _ V Hc) as (sp & Hsp & (_ & _ & Hmd & _)).
  pose proof (search_filtered C _ _ Hres) as F.
  rewrite Forall_forall in F. specialize (F sp Hsp).
  unfold capture_params in F; cbn [q_filter matches_opt] in F.
  rewrite (@build_filter_tenant _ _ Ht Hne) in F.
  unfold filter_matches in F; cbn [must forallb condition_holds] in F.
  change (keyword_field "metadata.tenantId" (sp_payload sp))
    with (sm_tenantId (metadata (sp_payload sp))) in F.
  rewrite Hmd.
  destruct (sm_tenantId (metadata (sp_payload sp))) as [x|]; [|discriminate].
  rewrite andb_true_r in F. apply String.eqb_eq in F. now subst.
Qed.

(** C3 (amended). Two [capture] calls made for distinct, non-empty tenant
    ids never see each other's record: against a store that honors its
    contract, no candidate returned to the call of one tenant shows a
    record written by the call of the other. *)
Theorem tenant_isolation (optionsA optionsB : CaptureOptions) (A B : string) :
  honors_contract client ->
  tenantId (co_metadata optionsA) = Some A ->
  tenantId (co_metadata optionsB) = Some B ->
  A <> EmptyString -> B <> EmptyString -> A <> B ->
  forall (writer reader : CaptureOptions),
    (writer = optionsA /\ reader = optionsB) \/ (writer = optionsB /\ reader = optionsA) ->
    forall (llmCall : exn + json) (w0 : World) (p : Point Vector),
      In p (points (snd (capture embedder client config writer llmCall w0))) ->
      ~ In p (points w0) ->
      forall (w w1 : World) (vector : Vector) (results : list CachedResult) (c : CachedResult),
        capture_search embedder client config reader w = (inr (vector, results), w1) ->
        In c results ->
        ~ shows c p.
Proof.
  intros C HA HB HAne HBne Hdiff writer reader Hroles llmCall w0 p Hin Hnew
         w w1 vector results c Hs Hc (_ & _ & Hmd).
  pose proof (@capture_writes_own_tenant _ _ _ _ C Hin Hnew) as Hw.
  destruct Hroles as [[-> ->]|[-> ->]].
  - pose proof (@capture_search_scoped _ _ _ _ _ _ _ C HB HBne Hs Hc) as Hr.
    rewrite Hmd, Hw, HA in Hr. inversion Hr; contradiction.
  - pose proof (@capture_search_scoped _ _ _ _ _ _ _ C HA HAne Hs Hc) as Hr.
    rewrite Hmd, Hw, HB in Hr. inversion Hr; subst; contradiction.
Qed.

End Facts.

Section Unscoped.

Variable Vector : Type.
Variable similarity : Vector -> Vector -> Q.
Variable embedder : EmbeddingProvider Vector.
Variable config : Config.

(** *** Lookups without a tenant, on the reference store *)

Lemma build_filter_no_tenant (md : Metadata) :
  truthy_opt_string (tenantId md) = false -> build_filter md = empty_filter.
Proof.
  unfold build_filter; intros ->; reflexivity.
Qed.

Lemma first_capture (options : CaptureOptions) (p : json) (w : World Vector) (v : Vector) :
  points w = [] ->
  embed (prompt options) = inr v ->
  exists w1,
    capture embedder (mem_client similarity) config options (inr p) w
    = (inr (miss_answer p), w1) /\
    points w1 = [stored_point (uuids w (uuids_drawn w)) (clock w (clock_reads w)) v
                   (stringify p) (with_prompt (co_metadata options) (prompt options))
                   (resolved_maxAge config options)] /\
    clock w1 = clock w /\ clock_reads w1 = S (clock_reads w) /\
    llm_calls w1 = S (llm_calls w).
Proof.
  intros Hpts Hv.
  rewrite capture_unfold.
  unfold capture_search, bind, lift; rewrite Hv.
  unfold search, try_catch, bind, request_search; cbn [client_search mem_client].
  rewrite Hpts. cbn.
  rewrite Hpts. eexists; split; [reflexivity|]. cbn.
  repeat split; auto.
  unfold stored_point, resolved_maxAge, truthy_opt_number.
  destruct (nullish (policy_maxAge (policy options)) (defaultTTL config)) as [t|];
    [destruct (Qeq_bool t 0)|]; reflexivity.
Qed.

Lemma mem_search_single (q : Point Vector) (ps : SearchParams Vector) :
  matches_opt (q_filter ps) (pt_payload q) = true ->
  q_score_threshold ps <= similarity (q_vector ps) (pt_vector q) ->
  (0 < q_limit ps)%nat ->
  mem_search similarity [q] ps = [score_point similarity (q_vector ps) q].
Proof.
  intros Hf Ht Hl. unfold mem_search. cbn [filter]. rewrite Hf. cbn [map filter].
  apply Qle_bool_iff in Ht. cbn [score_point sp_score]. rewrite Ht.
  cbn [sort_desc fold_right insert_desc].
  destruct (q_limit ps); [lia | destruct n; reflexivity].
Qed.

Lemma second_capture (options : CaptureOptions) (llmCall : exn + json)
  (w : World Vector) (v : Vector) (q : Point Vector) :
  points w = [q] ->
  embed (prompt options) = inr v ->
  filter_matches (build_filter (co_metadata options)) (pt_payload q) = true ->
  q_score_threshold (capture_params config options v) <= similarity v (pt_vector q) ->
  ~ createdAt (pt_payload q) == 0 ->
  fresh (resolved_maxAge config options)
        ((clock w (clock_reads w) - createdAt (pt_payload q)) / 1000) = true ->
  exists w2,
    capture embedder (mem_client similarity) config options llmCall w
    = (inr {| cr_payload := JStr (response (pt_payload q));
              cached := true; cost_saved := Some true |}, w2) /\
    points w2 = points w /\ llm_calls w2 = llm_calls w.
Proof.
  intros Hpts Hv Hf Ht Hc Hfresh.
  rewrite capture_unfold.
  unfold capture_search, bind, lift; rewrite Hv.
  unfold search, try_catch, bind, request_search; cbn [client_search mem_client].
  rewrite Hpts.
  match goal with |- context [mem_search similarity [q] ?ps] =>
    change ps with (capture_params config options v) end.
  rewrite mem_search_single; [|exact Hf|exact Ht|cbn; lia].
  cbn [mapM]. unfold bind at 1. unfold to_cached at 1. unfold bind at 1.
  cbn [score_point sp_payload sp_id sp_score].
  assert (Z : Qeq_bool (createdAt (pt_payload q)) 0 = false).
  { destruct (Qeq_bool _ 0) eqn:E; [|reflexivity]. apply Qeq_bool_iff in E; contradiction. }
  rewrite Z. cbn [ret bind].
  cbn [capture_hit]. unfold bind, Date_now.
  cbn [cr_createdAt cr_response]. fold (resolved_maxAge config options).
  rewrite Hfresh. eexists; split; [reflexivity|]. cbn; auto.
Qed.

Lemma build_filter_accepts_own (writer reader : Metadata) (prompt response : string)
  (created : Q) (expires : option Q) :
  truthy_opt_string (tenantId reader) = false \/ tenantId reader = tenantId writer ->
  filter_matches (build_filter reader)
    {| response := response; metadata := with_prompt writer prompt;
       createdAt := created; expiresAt := expires |} = true.
Proof.
  intros [H|H].
  - now rewrite build_filter_no_tenant.
  - unfold build_filter. destruct (tenantId reader) as [t|] eqn:E; [|reflexivity].
    destruct (truthy_opt_string (Some t)); [|reflexivity].
    unfold filter_matches; cbn [must empty_filter app forallb condition_holds].
    change (keyword_field "metadata.tenantId" ?x) with (sm_tenantId (metadata x)).
    cbn. rewrite <- H. now rewrite String.eqb_refl.
Qed.

(** A capture on an empty collection followed by a capture for the same
    prompt whose filter accepts the record just written. *)
Lemma write_then_read (writer reader : CaptureOptions) (p : json)
  (llmCall : exn + json) (w : World Vector) (v : Vector) :
  truthy_opt_string (tenantId (co_metadata reader)) = false \/
  tenantId (co_metadata reader) = tenantId (co_metadata writer) ->
  points w = [] ->
  prompt reader = prompt writer ->
  embed (prompt writer) = inr v ->
  q_score_threshold (capture_params config reader v) <= similarity v v ->
  ~ clock w (clock_reads w) == 0 ->
  fresh (resolved_maxAge config reader)
        ((clock w (S (clock_reads w)) - clock w (clock_reads w)) / 1000) = true ->
  exists w1 w2 q,
    capture embedder (mem_client similarity) config writer (inr p) w
    = (inr {| cr_payload := p; cached := false; cost_saved := None |}, w1) /\
    points w1 = [q] /\
    sm_tenantId (metadata (pt_payload q)) = tenantId (co_metadata writer) /\
    response (pt_payload q) = stringify p /\
    capture embedder (mem_client similarity) config reader llmCall w1
    = (inr {| cr_payload := JStr (stringify p); cached := true; cost_saved := Some true |},
       w2) /\
    llm_calls w2 = llm_calls w1.
Proof.
  intros Hscope Hpts Hprompt Hv Ht Hclock Hfresh.
  destruct (@first_capture writer p w v Hpts Hv) as (w1 & E1 & P1 & C1 & R1 & L1).
  set (q := stored_point (uuids w (uuids_drawn w)) (clock w (clock_reads w)) v
              (stringify p) (with_prompt (co_metadata writer) (prompt writer))
              (resolved_maxAge config writer)) in *.
  destruct (@second_capture reader llmCall w1 v q) as (w2 & E2 & P2 & L2); auto.
  - now rewrite Hprompt.
  - now apply build_filter_accepts_own.
  - now rewrite C1, R1.
  - exists w1, w2, q. repeat split; auto.
Qed.

(** The round trip of a payload: what the later hit returns is the
    serialised text of what the producer returned, never the value. *)
Lemma capture_round_trip (options : CaptureOptions) (p : json)
  (llmCall : exn + json) (w : World Vector) (v : Vector) :
  points w = [] ->
  embed (prompt options) = inr v ->
  q_score_threshold (capture_params config options v) <= similarity v v ->
  ~ clock w (clock_reads w) == 0 ->
  fresh (resolved_maxAge config options)
        ((clock w (S (clock_reads w)) - clock w (clock_reads w)) / 1000) = true ->
  exists w1 w2 answer,
    capture embedder (mem_client similarity) config options (inr p) w
    = (inr {| cr_payload := p; cached := false; cost_saved := None |}, w1) /\
    capture embedder (mem_client similarity) config options llmCall w1
    = (inr answer, w2) /\
    cached answer = true /\
    cr_payload answer = JStr (stringify p) /\
    cr_payload answer <> p.
Proof.
  intros Hpts Hv Ht Hclock Hfresh.
  destruct (@write_then_read options options p llmCall w v)
    as (w1 & w2 & q & E1 & _ & _ & _ & E2 & _); auto.
  exists w1, w2. eexists. split; [exact E1|]. split; [exact E2|].
  cbn. repeat split. apply JSONFacts.stringify_is_not_identity.
Qed.

(** C10. A [capture] whose metadata has no [tenantId] sends a filter
    without any condition, which accepts every record exactly as an
    absent filter does; so, with the exhaustive reference store, the record
    that a capture wrote under any tenant id is returned as a cache hit to
    a later capture, for the same prompt, that names no tenant. *)
Theorem tenantless_capture_sees_any_tenant
  (optionsT optionsN : CaptureOptions) (p : json) (llmCall : exn + json)
  (w : World Vector) (v : Vector) :
  tenantId (co_metadata optionsN) = None ->
  build_filter (co_metadata optionsN) = {| must := [] |} /\
  (forall (vector : Vector) payload,
     matches_opt (q_filter (capture_params config optionsN vector)) payload
     = matches_opt None payload) /\
  (points w = [] ->
   prompt optionsN = prompt optionsT ->
   embed (prompt optionsT) = inr v ->
   q_score_threshold (capture_params config optionsN v) <= similarity v v ->
   ~ clock w (clock_reads w) == 0 ->
   fresh (resolved_maxAge config optionsN)
         ((clock w (S (clock_reads w)) - clock w (clock_reads w)) / 1000) = true ->
   exists w1 w2 q,
     capture embedder (mem_client similarity) config optionsT (inr p) w
     = (inr {| cr_payload := p; cached := false; cost_saved := None |}, w1) /\
     points w1 = [q] /\
     sm_tenantId (metadata (pt_payload q)) = tenantId (co_metadata optionsT) /\
     response (pt_payload q) = stringify p /\
     capture embedder (mem_client similarity) config optionsN llmCall w1
     = (inr {| cr_payload := JStr (stringify p); cached := true; cost_saved := Some true |},
        w2) /\
     llm_calls w2 = llm_calls w1).
Proof.
  intro Hnone.
  assert (Hfilter : build_filter (co_metadata optionsN) = {| must := [] |}).
  { apply build_filter_no_tenant; now rewrite Hnone. }
  split; [exact Hfilter|]. split.
  - intros vector payload. unfold capture_params; cbn [q_filter matches_opt].
    now rewrite Hfilter.
  - intros Hpts Hprompt Hv Ht Hclock Hfresh.
    apply (@write_then_read optionsT optionsN p llmCall w v); auto.
    left; now rewrite Hnone.
Qed.

End Unscoped.

End EngineFacts.

(** ** The engine run on the concrete deployment *)

Module ScenarioFacts.

Import JS JSON Qdrant Run QdrantCache OptiLLM Measure Scenario.
Local Open Scope Q_scope.
Local Open Scope string_scope.

Lemma client_honors : honors_contract client.
Proof. apply ReferenceStore.mem_client_honors. Qed.

(** Five seconds after the first capture, the same prompt is a hit. *)
Lemma capture_fresh_hit_witness :
  exists found w2,
    run_capture (options_for (Some "acme")) (inl "producer must not run") (after_first 5000)
    = (inr {| cr_payload := JStr (cr_response found);
              cached := true; cost_saved := Some true |}, w2) /\
    cr_response found = stringify (JStr "Paris") /\
    llm_calls w2 = llm_calls (after_first 5000) /\
    points w2 = points (after_first 5000).
Proof.
  unfold run_capture.
  edestruct (@EngineFacts.capture_fresh_hit Vector embedder client config
               (options_for (Some "acme")) (inl "producer must not run")
               (after_first 5000)) as (w2 & E & L & P).
  - vm_compute. reflexivity.
  - right. exists 60. split; [reflexivity|]. right. vm_compute. reflexivity.
  - eexists; exists w2. split; [exact E|]. split; [reflexivity|]. split; assumption.
Defined.

(** Seventy seconds after the first capture the record is stale: the
    producer runs and a second record is written. *)
Lemma capture_stale_miss_witness :
  exists w2,
    run_capture (options_for (Some "acme")) (inr (JStr "Paris again")) (after_first 70000)
    = (inr {| cr_payload := JStr "Paris again"; cached := false; cost_saved := None |}, w2) /\
    llm_calls w2 = S (llm_calls (after_first 70000)) /\
    length (points w2) = 2%nat.
Proof.
  unfold run_capture.
  edestruct (@EngineFacts.capture_stale_miss Vector embedder client config
               (options_for (Some "acme")) (after_first 70000)) as [_ H].
  - vm_compute. reflexivity.
  - reflexivity.
  - vm_compute. discriminate.
  - vm_compute. discriminate.
  - edestruct (H (JStr "Paris again")) as (w2 & E & L & P & _).
    + reflexivity.
    + exists w2. split; [exact E|]. split; [exact L|]. rewrite P. reflexivity.
Defined.

(** A failing producer on a miss for another tenant. *)
Lemma capture_producer_failure_witness :
  exists w3,
    run_capture (options_for (Some "globex")) (inl "rate limited") (after_first 5000)
    = (inl "rate limited", w3) /\
    points w3 = points (after_first 5000) /\
    llm_calls w3 = S (llm_calls (after_first 5000)).
Proof.
  unfold run_capture.
  edestruct (proj2 (@EngineFacts.capture_producer_failure Vector embedder client config
                      (options_for (Some "globex")) "rate limited" (after_first 5000)))
    as (w3 & E & P & L).
  - vm_compute. reflexivity.
  - vm_compute. reflexivity.
  - exists w3. auto.
Defined.

(** A write with a TTL of 60 seconds. *)
Lemma store_sets_expiry_witness :
  exists p e,
    In p (points (snd (store client [1%Z] "null"
                         (with_prompt (co_metadata (options_for None)) "p")
                         (Some 60) (world 5000)))) /\
    expiresAt (pt_payload p) = Some e /\
    createdAt (pt_payload p) < e.
Proof.
  edestruct (@EngineFacts.store_sets_expiry Vector client [1%Z] "null"
               (with_prompt (co_metadata (options_for None)) "p")
               (Some 60) (world 5000)) as (p & Hin & _ & _ & _ & _ & _ & _ & Hpos).
  - exact client_honors.
  - vm_compute. reflexivity.
  - destruct (Hpos 60 eq_refl) as (e & He & Hlt); [reflexivity|].
    exists p, e. split; [exact Hin|]. split; assumption.
Defined.

(** C7, as stated, fails: a TTL of zero is supplied but the record gets no
    [expiresAt] (the statement asks for [now + 0]); and with a negative TTL
    [expiresAt] is set and lies before [createdAt]. *)
Lemma store_ttl_counterexample :
  (exists p,
      points (snd (store client [1%Z] "null"
                     (with_prompt (co_metadata (options_for None)) "p")
                     (Some 0) (world 5000))) = [p] /\
      createdAt (pt_payload p) = inject_Z 1700000000000 /\
      expiresAt (pt_payload p) = None /\
      expiresAt (pt_payload p) <> Some (createdAt (pt_payload p) + 0 * 1000)) /\
  (exists p e,
      points (snd (store client [1%Z] "null"
                     (with_prompt (co_metadata (options_for None)) "p")
                     (Some (-5 # 1)) (world 5000))) = [p] /\
      expiresAt (pt_payload p) = Some e /\
      e < createdAt (pt_payload p)).
Proof.
  split.
  - eexists. split; [vm_compute; reflexivity|]. cbn.
    split; [reflexivity|]. split; [reflexivity | discriminate].
  - do 2 eexists. split; [vm_compute; reflexivity|]. cbn.
    split; [reflexivity|]. reflexivity.
Qed.

(** Four records seen by a sweep at time 1700000000000: one that expired
    a second ago, one that expires at this very instant, one that expires
    later, one that never expires. *)
Lemma cleanup_sweeps_strictly_expired_witness :
  points (snd (QdrantCache.cleanup client
                 (stocked [record "old" 1 (Some (inject_Z 1699999999000));
                           record "now" 1 (Some (inject_Z 1700000000000));
                           record "later" 1 (Some (inject_Z 1700000001000));
                           record "forever" 1 None] 1)))
  = [record "now" 1 (Some (inject_Z 1700000000000));
     record "later" 1 (Some (inject_Z 1700000001000));
     record "forever" 1 None].
Proof.
  rewrite (proj1 (proj2 (@EngineFacts.cleanup_sweeps_strictly_expired Vector client _))
             client_honors _ eq_refl).
  reflexivity.
Defined.

(** C6, as stated, fails: a record whose [expiresAt] equals the current
    time satisfies [expiresAt <= now] and is still there after the sweep;
    and when the delete request fails, a record that expired long ago is
    still there as well. *)
Lemma cleanup_boundary_counterexample :
  (let r := record "now" 1 (Some (inject_Z 1700000000000)) in
   let w := stocked [r] 1 in
   exists e,
     expiresAt (pt_payload r) = Some e /\
     e <= clock w (clock_reads w) /\
     fst (QdrantCache.cleanup client w) = inr tt /\
     In r (points (snd (QdrantCache.cleanup client w)))) /\
  (let r := record "old" 1 (Some 5) in
   let w := stocked [r] 1 in
   exists e,
     expiresAt (pt_payload r) = Some e /\
     e <= clock w (clock_reads w) /\
     fst (QdrantCache.cleanup (down_client Vector "ECONNREFUSED") w) = inr tt /\
     In r (points (snd (QdrantCache.cleanup (down_client Vector "ECONNREFUSED") w)))).
Proof.
  split.
  - eexists. split; [reflexivity|]. split; [vm_compute; discriminate|].
    split; [reflexivity|]. vm_compute. left; reflexivity.
  - eexists. split; [reflexivity|]. split; [vm_compute; discriminate|].
    split; [reflexivity|]. vm_compute. left; reflexivity.
Qed.

(** A sweep against a store that is down returns normally. *)
Example cleanup_store_down :
  fst (QdrantCache.cleanup (down_client Vector "ECONNREFUSED")
         (stocked [record "old" 1 (Some 5)] 1)) = inr tt.
Proof. reflexivity. Qed.

(** C3, as stated, fails: the empty tenant id is present and differs from
    ["acme"], yet the lookup made for it returns the record that the
    capture of tenant ["acme"] wrote. *)
Lemma empty_tenant_counterexample :
  exists p c vector w1,
    tenantId (co_metadata (options_for (Some "acme"))) = Some "acme" /\
    tenantId (co_metadata (options_for (Some EmptyString))) = Some EmptyString /\
    "acme" <> EmptyString /\
    prompt (options_for (Some "acme")) = prompt (options_for (Some EmptyString)) /\
    In p (points (snd (run_capture (options_for (Some "acme")) (inr (JStr "Paris"))
                         (world 5000)))) /\
    ~ In p (points (world 5000)) /\
    capture_search embedder client config (options_for (Some EmptyString))
      (snd (run_capture (options_for (Some "acme")) (inr (JStr "Paris")) (world 5000)))
    = (inr (vector, [c]), w1) /\
    shows c p.
Proof.
  do 4 eexists.
  split; [reflexivity|]. split; [reflexivity|]. split; [discriminate|].
  split; [reflexivity|].
  split; [vm_compute; left; reflexivity|].
  split; [intros []|].
  split; [vm_compute; reflexivity|].
  unfold shows; cbn; auto.
Qed.

(** Tenants [acme] and [globex] each wrote a record for the same prompt;
    the lookup of [globex] returns a candidate, and it does not show the
    record of [acme]. *)
Lemma tenant_isolation_witness :
  exists c vector w1,
    In acme_record (points (after_first 5000)) /\
    capture_search embedder client config (options_for (Some "globex"))
      (snd (run_capture (options_for (Some "globex")) (inr (JStr "Paris")) (after_first 5000)))
    = (inr (vector, [c]), w1) /\
    ~ shows c acme_record.
Proof.
  assert (HA : "acme" <> EmptyString) by discriminate.
  assert (HB : "globex" <> EmptyString) by discriminate.
  assert (HAB : "acme" <> "globex") by discriminate.
  assert (Hin : In acme_record
                  (points (snd (capture embedder client config (options_for (Some "acme"))
                                  (inr (JStr "Paris")) (world 5000)))))
    by (vm_compute; left; reflexivity).
  assert (Hnew : ~ In acme_record (points (world 5000))) by (intros []).
  do 3 eexists.
  split; [exact Hin|].
  split; [vm_compute; reflexivity|].
  eapply (@EngineFacts.tenant_isolation Vector embedder client config
            (options_for (Some "acme")) (options_for (Some "globex")) "acme" "globex"
            client_honors eq_refl eq_refl HA HB HAB
            (options_for (Some "acme")) (options_for (Some "globex"))
            (or_introl (conj eq_refl eq_refl))
            (inr (JStr "Paris")) (world 5000) acme_record Hin Hnew
            (snd (run_capture (options_for (Some "globex")) (inr (JStr "Paris"))
                    (after_first 5000)))).
  - vm_compute; reflexivity.
  - left; reflexivity.
Defined.

(** A capture that names no tenant is served the record of tenant
    [acme]. *)
Lemma tenantless_capture_sees_any_tenant_witness :
  exists w1 w2 q,
    run_capture (options_for (Some "acme")) (inr (JStr "Paris")) (world 5000)
    = (inr {| cr_payload := JStr "Paris"; cached := false; cost_saved := None |}, w1) /\
    points w1 = [q] /\
    sm_tenantId (metadata (pt_payload q)) = Some "acme" /\
    run_capture (options_for None) (inl "producer must not run") w1
    = (inr {| cr_payload := JStr (stringify (JStr "Paris"));
              cached := true; cost_saved := Some true |}, w2).
Proof.
  unfold run_capture, client.
  edestruct (proj2 (proj2 (@EngineFacts.tenantless_capture_sees_any_tenant Vector similarity
                      embedder config (options_for (Some "acme")) (options_for None)
                      (JStr "Paris") (inl "producer must not run") (world 5000)
                      (LocalEmbedding.accumulate 8
                         (LocalEmbedding.tokenize (prompt (options_for None))))
                      eq_refl)))
    as (w1 & w2 & q & E1 & P & T & _ & E2 & _).
  - reflexivity.
  - reflexivity.
  - reflexivity.
  - vm_compute. discriminate.
  - vm_compute. discriminate.
  - vm_compute. reflexivity.
  - exists w1, w2, q. auto.
Defined.

(** *** The value returned on a hit *)

(** C4 on the code. The first capture misses, the producer returns the
    string [Paris] and [capture] returns it; the second capture hits that
    record and returns the JSON text of the string, quotes included, which
    is another value.  In general the value returned on a hit is the
    string [JSON.stringify p], which never equals [p]. *)
Theorem hit_returns_serialized_text :
  fst (run_capture (options_for (Some "acme")) (inr (JStr "Paris")) (world 5000))
  = inr {| cr_payload := JStr "Paris"; cached := false; cost_saved := None |} /\
  fst (run_capture (options_for (Some "acme")) (inl "producer must not run")
         (after_first 5000))
  = inr {| cr_payload := JStr (String dquote ("Paris" ++ String dquote EmptyString));
           cached := true; cost_saved := Some true |} /\
  JStr (String dquote ("Paris" ++ String dquote EmptyString)) <> JStr "Paris" /\
  (forall p : json, JStr (stringify p) <> p).
Proof.
  split; [vm_compute; reflexivity|].
  split; [vm_compute; reflexivity|].
  split; [discriminate|].
  exact JSONFacts.stringify_is_not_identity.
Qed.

End ScenarioFacts.

(** ** Further properties of the hashing embedding *)

Module LocalEmbeddingMore.

Import JS LocalEmbedding Measure Bag.

(** *** The hash *)

Local Open Scope Z_scope.

Lemma to_int32_unfold (z : Z) :
  to_int32 z = (z + 2147483648) mod 4294967296 - 2147483648.
Proof. reflexivity. Qed.

Lemma to_int32_range (z : Z) : - 2147483648 <= to_int32 z < 2147483648.
Proof.
  rewrite to_int32_unfold.
  pose proof (Z.mod_pos_bound (z + 2147483648) 4294967296). lia.
Qed.

Lemma to_int32_mod (z : Z) : to_int32 z mod 4294967296 = z mod 4294967296.
Proof.
  rewrite to_int32_unfold.
  rewrite <- Zminus_mod_idemp_l, Z.mod_mod by lia.
  rewrite Zminus_mod_idemp_l. f_equal. lia.
Qed.

Lemma to_int32_congr (a b : Z) :
  a mod 4294967296 = b mod 4294967296 -> to_int32 a = to_int32 b.
Proof.
  intro H. rewrite !to_int32_unfold. f_equal.
  rewrite <- (Zplus_mod_idemp_l a), <- (Zplus_mod_idemp_l b), H. reflexivity.
Qed.

Lemma to_int32_idem (z : Z) : to_int32 (to_int32 z) = to_int32 z.
Proof. apply to_int32_congr, to_int32_mod. Qed.

Lemma hash_step_poly (h : Z) (c : ascii) :
  hash_step (to_int32 h) c = to_int32 (31 * h + charCode c).
Proof.
  unfold hash_step, band, shl.
  rewrite Z.land_diag, to_int32_idem.
  apply to_int32_congr.
  change (5 mod 32) with 5. rewrite Z.shiftl_mul_pow2 by lia.
  change (2 ^ 5) with 32. rewrite to_int32_idem.
  set (x := to_int32 h).
  assert (Hx : x mod 4294967296 = h mod 4294967296) by apply to_int32_mod.
  assert (H32 : to_int32 (x * 32) mod 4294967296 = (x * 32) mod 4294967296)
    by apply to_int32_mod.
  rewrite Zplus_mod, Zminus_mod, H32, <- Zminus_mod, <- Zplus_mod.
  replace (x * 32 - x + charCode c) with (31 * x + charCode c) by lia.
  rewrite Zplus_mod, Zmult_mod, Hx, <- Zmult_mod, <- Zplus_mod.
  reflexivity.
Qed.

Lemma hash_loop_poly (h : Z) (str : string) :
  hash_loop (to_int32 h) str = to_int32 (poly_hash h str).
Proof.
  revert h; induction str as [|c r IH]; intro h; simpl; [reflexivity|].
  rewrite hash_step_poly. apply IH.
Qed.

(** X1. [simpleHash] is the absolute value of the polynomial hash with
    multiplier 31 reduced to a signed 32-bit integer; it lies between 0 and
    2^31 inclusive. *)
Theorem simpleHash_is_polynomial (str : string) :
  simpleHash str = Z.abs (to_int32 (poly_hash 0 str)) /\
  0 <= simpleHash str <= 2147483648.
Proof.
  unfold simpleHash.
  change (hash_loop 0 str) with (hash_loop (to_int32 0) str).
  rewrite hash_loop_poly.
  split; [reflexivity|].
  pose proof (to_int32_range (poly_hash 0 str)). lia.
Qed.

(** *** The accumulator as a table of counts *)

Lemma incr_at_nth (j i : nat) (v : list Z) :
  (j < length v)%nat ->
  nth i (incr_at j v) 0 = nth i v 0 + (if (i =? j)%nat then 1 else 0).
Proof.
  revert j i; induction v as [|x r IH]; intros j i Hj; simpl in *; [lia|].
  destruct j as [|j]; destruct i as [|i]; simpl; try lia.
  rewrite IH by lia. reflexivity.
Qed.

Lemma fold_add_token_nth (dim : nat) (tokens : list string) (v : list Z) (i : nat) :
  (0 < dim)%nat -> length v = dim ->
  nth i (fold_left (add_token dim) tokens v) 0
  = nth i v 0 + Z.of_nat (count_bucket dim i tokens).
Proof.
  intro Hd; revert v; induction tokens as [|t r IH]; intros v Hlen.
  - unfold count_bucket; simpl; lia.
  - cbn [fold_left]. rewrite IH by (rewrite LocalEmbeddingFacts.add_token_length; exact Hlen).
    assert (Hstep : add_token dim v t = incr_at (bucket dim t) v).
    { unfold add_token, bucket; destruct dim; [lia | reflexivity]. }
    rewrite Hstep, incr_at_nth
      by (rewrite Hlen; now apply LocalEmbeddingFacts.bucket_in_range).
    unfold count_bucket; cbn [filter].
    rewrite (Nat.eqb_sym i (bucket dim t)).
    destruct (bucket dim t =? i)%nat; simpl length; lia.
Qed.

Lemma nth_repeat_zero (n i : nat) : nth i (repeat 0 n) 0 = 0.
Proof. revert i; induction n; intros [|i]; simpl; auto. Qed.

Lemma accumulate_table (dim : nat) (tokens : list string) :
  (0 < dim)%nat ->
  accumulate dim tokens
  = map (fun i => Z.of_nat (count_bucket dim i tokens)) (seq 0 dim).
Proof.
  intro Hd. apply (nth_ext _ _ 0 0).
  - now rewrite LocalEmbeddingFacts.accumulate_length, length_map, length_seq.
  - intros i Hi. rewrite LocalEmbeddingFacts.accumulate_length in Hi.
    unfold accumulate.
    rewrite fold_add_token_nth by (auto using repeat_length).
    rewrite nth_repeat_zero.
    rewrite (nth_indep _ 0 (Z.of_nat (count_bucket dim 0 tokens)))
      by (now rewrite length_map, length_seq).
    rewrite (map_nth (fun i => Z.of_nat (count_bucket dim i tokens))).
    rewrite seq_nth by assumption. reflexivity.
Qed.

Lemma accumulate_no_bucket (tokens : list string) : accumulate 0 tokens = [].
Proof.
  unfold accumulate; simpl. induction tokens; simpl; auto.
Qed.

(** X2. For a positive dimension the accumulator is the table of bucket
    counts: component [i] is the number of tokens whose hash, modulo the
    dimension, is [i]; so the components add up to the number of tokens. *)
Theorem accumulate_is_bucket_count (dim : nat) (tokens : list string) :
  (0 < dim)%nat ->
  accumulate dim tokens
  = map (fun i => Z.of_nat (count_bucket dim i tokens)) (seq 0 dim) /\
  total (accumulate dim tokens) = Z.of_nat (length tokens).
Proof.
  intro Hd. split.
  - now apply accumulate_table.
  - now apply LocalEmbeddingFacts.accumulate_counts.
Qed.

Lemma accumulate_is_bucket_count_witness :
  (0 < 8)%nat /\
  accumulate 8 (tokenize "to be or not to be")
  = map (fun i => Z.of_nat (count_bucket 8 i (tokenize "to be or not to be"))) (seq 0 8).
Proof.
  split; [lia|].
  apply (@accumulate_is_bucket_count 8 (tokenize "to be or not to be")). lia.
Defined.

(** *** Word order and letter case *)

Lemma embed_normalise (dim : nat) (text : string) :
  embed dim text = normalise (accumulate dim (tokenize text)).
Proof. reflexivity. Qed.

Lemma count_bucket_perm (dim i : nat) (l l' : list string) :
  Permutation l l' -> count_bucket dim i l = count_bucket dim i l'.
Proof.
  unfold count_bucket. induction 1 as [|x l l' _ IH|x y l|l l' l'' _ IH1 _ IH2]; simpl.
  - reflexivity.
  - destruct (bucket dim x =? i)%nat; simpl; congruence.
  - destruct (bucket dim x =? i)%nat, (bucket dim y =? i)%nat; reflexivity.
  - congruence.
Qed.

Lemma accumulate_perm (dim : nat) (l l' : list string) :
  Permutation l l' -> accumulate dim l = accumulate dim l'.
Proof.
  intro P. destruct dim as [|d].
  - now rewrite !accumulate_no_bucket.
  - rewrite !accumulate_table by lia.
    apply map_ext; intro i. now rewrite (count_bucket_perm _ _ P).
Qed.

(** X3. The embedding ignores word order: two texts whose token lists
    are permutations of each other have the same embedding. *)
Theorem embed_ignores_word_order (dim : nat) (a b : string) :
  Permutation (tokenize a) (tokenize b) -> embed dim a = embed dim b.
Proof.
  intro P. rewrite !embed_normalise. now rewrite (accumulate_perm dim P).
Qed.

Lemma embed_ignores_word_order_witness :
  embed 384 "cache semantic response" = embed 384 "response cache semantic".
Proof.
  apply embed_ignores_word_order.
  change (tokenize "cache semantic response") with ["cache"; "semantic"; "response"]%string.
  change (tokenize "response cache semantic") with ["response"; "cache"; "semantic"]%string.
  apply Permutation_sym, (Permutation_cons_app ["cache"; "semantic"]%string []).
  rewrite app_nil_r. apply Permutation_refl.
Defined.

Lemma lower_char_idem (c : ascii) : lower_char (lower_char c) = lower_char c.
Proof. destruct c as [[] [] [] [] [] [] [] []]; reflexivity. Qed.

Lemma toLowerCase_idem (s : string) : toLowerCase (toLowerCase s) = toLowerCase s.
Proof.
  induction s as [|c r IH]; simpl; [reflexivity|]. now rewrite lower_char_idem, IH.
Qed.

(** X4. The embedding ignores letter case: a text and its lower-case form
    have the same tokens and the same embedding. *)
Theorem embed_ignores_case (dim : nat) (text : string) :
  tokenize (toLowerCase text) = tokenize text /\
  embed dim (toLowerCase text) = embed dim text.
Proof.
  assert (T : tokenize (toLowerCase text) = tokenize text).
  { unfold tokenize. now rewrite toLowerCase_idem. }
  split; [exact T|]. now rewrite !embed_normalise, T.
Qed.

(** *** Tokens and separators *)

Lemma toLowerCase_app (a b : string) :
  toLowerCase (a ++ b) = (toLowerCase a ++ toLowerCase b)%string.
Proof. induction a as [|c r IH]; simpl; [reflexivity|]. now rewrite IH. Qed.

Lemma tokens_after_separator (s : string) :
  filter truthy_string (split_go true EmptyString s)
  = filter truthy_string (split_go false EmptyString s).
Proof.
  destruct s as [|c r]; simpl; [reflexivity|].
  destruct (is_whitespace c); reflexivity.
Qed.

Lemma tokens_skip_blank (w s : string) :
  all_whitespace w = true ->
  filter truthy_string (split_go true EmptyString (w ++ s))
  = filter truthy_string (split_go true EmptyString s).
Proof.
  induction w as [|c r IH]; simpl; [reflexivity|].
  intro H; apply andb_prop in H; destruct H as [Hc Hr].
  rewrite Hc. now apply IH.
Qed.

Lemma tokens_app (b : bool) (cur s1 ws s2 : string) :
  (b = true -> cur = EmptyString) ->
  all_whitespace ws = true -> ws <> EmptyString ->
  filter truthy_string (split_go b cur (s1 ++ ws ++ s2))
  = filter truthy_string (split_go b cur s1)
    ++ filter truthy_string (split_go true EmptyString s2).
Proof.
  intros Hinv Hws Hne. revert b cur Hinv.
  induction s1 as [|c r IH]; intros b cur Hinv.
  - destruct ws as [|c w]; [congruence|].
    simpl in Hws; apply andb_prop in Hws; destruct Hws as [Hc Hw].
    cbn [append split_go]. rewrite Hc.
    destruct b.
    + rewrite (Hinv eq_refl). rewrite tokens_skip_blank by assumption. reflexivity.
    + cbn [filter]. rewrite tokens_skip_blank by assumption.
      destruct (truthy_string cur); reflexivity.
  - cbn [append split_go]. destruct (is_whitespace c).
    + destruct b.
      * now apply IH.
      * cbn [filter]. rewrite IH by reflexivity.
        destruct (truthy_string cur); reflexivity.
    + apply IH. discriminate.
Qed.

Lemma tokenize_app (a ws b : string) :
  all_whitespace ws = true -> ws <> EmptyString ->
  tokenize (a ++ ws ++ b) = tokenize a ++ tokenize b.
Proof.
  intros Hws Hne. unfold tokenize, split_ws.
  rewrite !toLowerCase_app.
  rewrite tokens_app.
  - now rewrite tokens_after_separator.
  - discriminate.
  - now rewrite LocalEmbeddingFacts.all_whitespace_lower.
  - destruct ws; [congruence | discriminate].
Qed.

(** X5. Tokenising a text made of two parts joined by a non-empty run of
    white space gives the tokens of the first part followed by the tokens
    of the second; hence the kind and the amount of white space between
    words do not change the embedding. *)
Theorem embed_ignores_spacing (dim : nat) (a b ws ws' : string) :
  all_whitespace ws = true -> ws <> EmptyString ->
  all_whitespace ws' = true -> ws' <> EmptyString ->
  tokenize (a ++ ws ++ b) = tokenize a ++ tokenize b /\
  embed dim (a ++ ws ++ b) = embed dim (a ++ ws' ++ b).
Proof.
  intros H1 N1 H2 N2. split; [now apply tokenize_app|].
  rewrite !embed_normalise. now rewrite !tokenize_app.
Qed.

Lemma embed_ignores_spacing_witness :
  embed 384 ("semantic" ++ " " ++ "cache")
  = embed 384 ("semantic" ++ String (ascii_of_nat 9) (String (ascii_of_nat 10) "  ") ++ "cache").
Proof.
  apply (@embed_ignores_spacing 384 "semantic" "cache" " "
           (String (ascii_of_nat 9) (String (ascii_of_nat 10) "  ")));
    (reflexivity || discriminate).
Defined.

Lemma split_go_pieces (P : string -> Prop) (b : bool) (cur s : string) :
  P EmptyString -> P cur ->
  (forall t c, P t -> is_whitespace c = false -> In c (list_ascii_of_string s) ->
               P (t ++ String c EmptyString)%string) ->
  Forall P (split_go b cur s).
Proof.
  intros P0 Pcur Hstep. revert b cur Pcur.
  induction s as [|c r IH]; intros b cur Pcur; simpl.
  - constructor; auto.
  - assert (Hr : forall t c0, P t -> is_whitespace c0 = false ->
                   In c0 (list_ascii_of_string r) -> P (t ++ String c0 EmptyString)%string).
    { intros t c0 Pt Hc0 Hin. apply Hstep; auto. simpl; auto. }
    destruct (is_whitespace c) eqn:Hc.
    + destruct b; [now apply IH|]. constructor; [assumption | now apply IH].
    + apply IH; [assumption|]. apply Hstep; auto. simpl; auto.
Qed.

Lemma no_whitespace_snoc (t : string) (c : ascii) :
  no_whitespace t = true -> is_whitespace c = false ->
  no_whitespace (t ++ String c EmptyString) = true.
Proof.
  induction t as [|d r IH]; simpl; intros Ht Hc.
  - now rewrite Hc.
  - apply andb_prop in Ht; destruct Ht as [Hd Hr]. rewrite Hd. now apply IH.
Qed.

Lemma toLowerCase_snoc (t : string) (c : ascii) :
  toLowerCase t = t -> lower_char c = c ->
  toLowerCase (t ++ String c EmptyString) = (t ++ String c EmptyString)%string.
Proof.
  intros Ht Hc. rewrite toLowerCase_app, Ht. simpl. now rewrite Hc.
Qed.

Lemma lowered_chars (s : string) (c : ascii) :
  In c (list_ascii_of_string (toLowerCase s)) -> lower_char c = c.
Proof.
  induction s as [|d r IH]; simpl; [contradiction|].
  intros [<-|H]; [apply lower_char_idem | now apply IH].
Qed.

(** X6. Every token is well formed: it is not empty, contains no white
    space, and is in lower case. *)
Theorem tokens_well_formed (text : string) :
  Forall well_formed_token (tokenize text).
Proof.
  unfold tokenize, split_ws.
  assert (F : Forall (fun t => no_whitespace t = true /\ toLowerCase t = t)
                (split_go false EmptyString (toLowerCase text))).
  { apply split_go_pieces.
    - split; reflexivity.
    - split; reflexivity.
    - intros t c [Hn Hl] Hc Hin. split.
      + now apply no_whitespace_snoc.
      + apply toLowerCase_snoc; [assumption | now apply (lowered_chars text)]. }
  rewrite Forall_forall in *. intros t Ht. apply filter_In in Ht.
  destruct Ht as [Hin Htr]. destruct (F t Hin) as [Hn Hl].
  split; [|split; assumption].
  intro E; subst t; discriminate.
Qed.

(** *** Bounds and scale *)

Lemma squares_nonneg (v : list Z) : 0 <= squares v.
Proof. induction v as [|x r IH]; simpl; [lia | nia]. Qed.

Lemma square_le_squares (v : list Z) (x : Z) : In x v -> x * x <= squares v.
Proof.
  induction v as [|y r IH]; simpl; [contradiction|].
  pose proof (squares_nonneg r) as Hr.
  intros [->|Hin]; [nia|]. specialize (IH Hin). nia.
Qed.

Lemma accumulate_nonneg (dim : nat) (tokens : list string) :
  Forall (fun x => 0 <= x) (accumulate dim tokens).
Proof.
  destruct dim as [|d].
  - rewrite accumulate_no_bucket; constructor.
  - apply LocalEmbeddingFacts.accumulate_counts; lia.
Qed.

Local Open Scope R_scope.

Lemma norm_zero_all_zero (v : list Z) (x : Z) :
  ~ 0 < norm_of v -> In x v -> x = 0%Z.
Proof.
  intros Hn Hx. unfold norm_of in Hn.
  rewrite LocalEmbeddingFacts.sum_squares_IZR in Hn.
  pose proof (squares_nonneg v) as Hs.
  pose proof (@square_le_squares v x Hx) as Hle.
  destruct (Z.eq_dec (squares v) 0) as [E|E]; [nia|].
  exfalso; apply Hn. apply sqrt_lt_R0, IZR_lt. lia.
Qed.

Lemma component_le_norm (v : list Z) (x : Z) :
  (0 <= x)%Z -> In x v -> IZR x <= norm_of v.
Proof.
  intros H0 Hx. unfold norm_of. rewrite LocalEmbeddingFacts.sum_squares_IZR.
  rewrite <- (sqrt_square (IZR x)) by now apply IZR_le.
  apply sqrt_le_1_alt. rewrite <- mult_IZR. apply IZR_le.
  now apply square_le_squares.
Qed.

(** X7. Every component of an embedding lies between 0 and 1. *)
Theorem embed_components_bounded (dim : nat) (text : string) :
  Forall (fun x => 0 <= x <= 1) (embed dim text).
Proof.
  rewrite embed_normalise. unfold normalise.
  pose proof (accumulate_nonneg dim (tokenize text)) as Hpos.
  rewrite Forall_forall in Hpos.
  set (v := accumulate dim (tokenize text)) in *.
  destruct (Rlt_dec 0 (norm_of v)) as [Hn|Hn];
    apply Forall_forall; intros y Hy; apply in_map_iff in Hy;
    destruct Hy as (x & <- & Hx).
  - pose proof (Hpos x Hx) as H0. apply IZR_le in H0.
    pose proof (@component_le_norm v x (Hpos x Hx) Hx) as Hle.
    split.
    + apply Rmult_le_pos; [exact H0 | left; now apply Rinv_0_lt_compat].
    + apply (Rmult_le_reg_r (norm_of v)); [exact Hn|].
      unfold Rdiv. rewrite Rmult_assoc, Rinv_l by lra. lra.
  - rewrite (@norm_zero_all_zero v x Hn Hx). lra.
Qed.

Lemma sum_squares_scale (k : Z) (v : list Z) :
  sum_squares (map (Z.mul k) v) = IZR k * IZR k * sum_squares v.
Proof.
  rewrite !LocalEmbeddingFacts.sum_squares_IZR.
  induction v as [|x r IH]; simpl.
  - lra.
  - rewrite !plus_IZR, !mult_IZR, IH. lra.
Qed.

Lemma norm_of_scale (k : Z) (v : list Z) :
  (0 < k)%Z -> norm_of (map (Z.mul k) v) = IZR k * norm_of v.
Proof.
  intro Hk. unfold norm_of. rewrite sum_squares_scale.
  assert (0 < IZR k) by now apply IZR_lt.
  rewrite sqrt_mult_alt by nra.
  now rewrite sqrt_square by lra.
Qed.

Lemma normalise_scale (k : Z) (v : list Z) :
  (0 < k)%Z -> normalise (map (Z.mul k) v) = normalise v.
Proof.
  intro Hk. unfold normalise. rewrite norm_of_scale by assumption.
  assert (Hk' : 0 < IZR k) by now apply IZR_lt.
  destruct (Rlt_dec 0 (norm_of v)) as [Hn|Hn].
  - destruct (Rlt_dec 0 (IZR k * norm_of v)) as [_|Hc]; [|exfalso; apply Hc; nra].
    rewrite map_map. apply map_ext; intro x. rewrite mult_IZR. field. lra.
  - destruct (Rlt_dec 0 (IZR k * norm_of v)) as [Hc|_].
    + exfalso; apply Hn.
      apply (Rmult_lt_reg_l (IZR k)); [exact Hk' | lra].
    + rewrite map_map. apply map_ext_in; intros x Hx.
      now rewrite (@norm_zero_all_zero v x Hn Hx), Z.mul_0_r.
Qed.

Lemma accumulate_twice (dim : nat) (l : list string) :
  accumulate dim (l ++ l) = map (Z.mul 2) (accumulate dim l).
Proof.
  destruct dim as [|d].
  - now rewrite !accumulate_no_bucket.
  - rewrite !accumulate_table by lia. rewrite map_map.
    apply map_ext; intro i. unfold count_bucket.
    rewrite filter_app, length_app. lia.
Qed.

(** X8. Repeating a text does not change its embedding: the text written
    twice, with white space in between, embeds as the text itself. *)
Theorem embed_ignores_repetition (dim : nat) (text ws : string) :
  all_whitespace ws = true -> ws <> EmptyString ->
  embed dim (text ++ ws ++ text) = embed dim text.
Proof.
  intros Hws Hne. rewrite !embed_normalise.
  rewrite tokenize_app by assumption.
  rewrite accumulate_twice. apply normalise_scale. lia.
Qed.

Lemma embed_ignores_repetition_witness :
  embed 384 ("what is redis" ++ " " ++ "what is redis") = embed 384 "what is redis".
Proof.
  apply (@embed_ignores_repetition 384 "what is redis" " ");
    (reflexivity || discriminate).
Defined.

End LocalEmbeddingMore.

(** ** The input sent to the remote embedding model *)

Module OpenAIEmbeddingFacts.

Import JS OpenAIEmbedding.

Lemma trim_start_shorter (s : string) :
  (String.length (trim_start s) <= String.length s)%nat.
Proof.
  induction s as [|c r IH]; simpl; [lia|].
  destruct (is_whitespace c); simpl; lia.
Qed.

Lemma trim_start_fixed_head (c : ascii) (r : string) :
  trim_start (String c r) = String c r -> is_whitespace c = false.
Proof.
  simpl. destruct (is_whitespace c); [|reflexivity].
  intro H. pose proof (trim_start_shorter r) as L. rewrite H in L. simpl in L. lia.
Qed.

Lemma trim_start_idem (s : string) : trim_start (trim_start s) = trim_start s.
Proof.
  induction s as [|c r IH]; simpl; [reflexivity|].
  destruct (is_whitespace c) eqn:E; [assumption|]. simpl. now rewrite E.
Qed.

Lemma trim_end_idem (s : string) : trim_end (trim_end s) = trim_end s.
Proof.
  induction s as [|c r IH]; simpl; [reflexivity|].
  destruct (trim_end r) as [|d t] eqn:E.
  - destruct (is_whitespace c) eqn:Hc; simpl; [reflexivity|]. now rewrite Hc.
  - change (trim_end (String c (String d t)))
      with (match trim_end (String d t) with
            | EmptyString => if is_whitespace c then EmptyString else String c EmptyString
            | String d0 t0 => String c (String d0 t0)
            end).
    now rewrite IH.
Qed.

Lemma trim_end_keeps_head (s : string) :
  trim_start s = s -> trim_start (trim_end s) = trim_end s.
Proof.
  destruct s as [|c r]; [reflexivity|].
  intro H. apply trim_start_fixed_head in H.
  simpl. destruct (trim_end r); rewrite ?H; simpl; rewrite ?H; reflexivity.
Qed.

Lemma trim_idem (s : string) : trim (trim s) = trim s.
Proof.
  unfold trim.
  rewrite trim_end_keeps_head by apply trim_start_idem.
  apply trim_end_idem.
Qed.

Lemma trim_start_subset (s : string) (c : ascii) :
  In c (list_ascii_of_string (trim_start s)) -> In c (list_ascii_of_string s).
Proof.
  induction s as [|d r IH]; simpl; [auto|].
  destruct (is_whitespace d); simpl; auto.
Qed.

Lemma trim_end_subset (s : string) (c : ascii) :
  In c (list_ascii_of_string (trim_end s)) -> In c (list_ascii_of_string s).
Proof.
  revert c; induction s as [|d r IH]; intro c; simpl; [auto|].
  destruct (trim_end r) as [|e t].
  - destruct (is_whitespace d); simpl; intuition.
  - intros [H|H]; [auto|]. right. now apply IH.
Qed.

Lemma replace_newlines_clean (s : string) (c : ascii) :
  In c (list_ascii_of_string (replace_newlines s)) -> nat_of_ascii c <> 10%nat.
Proof.
  induction s as [|d r IH]; simpl; [contradiction|].
  intros [<-|H]; [|now apply IH].
  destruct (nat_of_ascii d =? 10)%nat eqn:E.
  - discriminate.
  - now apply Nat.eqb_neq.
Qed.

Lemma replace_newlines_fixed (s : string) :
  (forall c, In c (list_ascii_of_string s) -> nat_of_ascii c <> 10%nat) ->
  replace_newlines s = s.
Proof.
  induction s as [|d r IH]; simpl; [reflexivity|].
  intro H. rewrite IH by (intros c Hc; apply H; auto).
  destruct (nat_of_ascii d =? 10)%nat eqn:E; [|reflexivity].
  apply Nat.eqb_eq in E. exfalso. now apply (H d); auto.
Qed.

Lemma prepare_input_clean (text : string) (c : ascii) :
  In c (list_ascii_of_string (prepare_input text)) -> nat_of_ascii c <> 10%nat.
Proof.
  unfold prepare_input, trim. intro H.
  apply trim_end_subset, trim_start_subset in H.
  now apply replace_newlines_clean in H.
Qed.

(** X9. The input that [OpenAIEmbedding.embed] sends to the model holds
    no line feed and no white space at either end, and preparing an
    already prepared text changes nothing. *)
Theorem prepare_input_normal_form (text : string) :
  (forall c, In c (list_ascii_of_string (prepare_input text)) ->
             nat_of_ascii c <> 10%nat) /\
  trim_start (prepare_input text) = prepare_input text /\
  trim_end (prepare_input text) = prepare_input text /\
  prepare_input (prepare_input text) = prepare_input text.
Proof.
  split; [apply prepare_input_clean|].
  split; [|split].
  - unfold prepare_input, trim. apply trim_end_keeps_head, trim_start_idem.
  - unfold prepare_input, trim. apply trim_end_idem.
  - assert (E : replace_newlines (prepare_input text) = prepare_input text)
      by (apply replace_newlines_fixed, prepare_input_clean).
    unfold prepare_input at 1. rewrite E.
    unfold prepare_input. apply trim_idem.
Qed.

Example prepare_input_example :
  prepare_input (String (ascii_of_nat 10) " What is" ++ String (ascii_of_nat 10) "Redis?  ")
  = "What is Redis?"%string.
Proof. reflexivity. Qed.

End OpenAIEmbeddingFacts.

(** ** Further properties of the store adapter and the engine *)

Module EngineMore.

Import JS JSON Qdrant Run QdrantCache OptiLLM Measure Terms.
Local Open Scope Q_scope.

Section More.

Variable Vector : Type.
Variable embedder : EmbeddingProvider Vector.
Variable client : Client Vector.
Variable config : Config.

Local Abbreviation World := (Run.World Vector).

(** *** [search] and [suggest] *)

Lemma to_cached_reports (sp : ScoredPoint) (w : World) :
  exists c w', to_cached sp w = (inr c, w') /\ untouched w w' /\ reports sp c.
Proof.
  destruct (@EngineFacts.to_cached_run Vector sp w) as (c & w' & E & U & V).
  exists c, w'. split; [exact E|]. split; [exact U|]. split; [exact V|].
  unfold to_cached, bind in E.
  destruct (Qeq_bool (createdAt (sp_payload sp)) 0);
    inversion E; subst; cbn [cr_score];
    destruct (Qeq_bool (sp_score sp) 0) eqn:Z;
    try reflexivity; apply Qeq_bool_iff in Z; now rewrite Z.
Qed.

Lemma mapM_to_cached_reports (res : list ScoredPoint) (w : World) :
  exists cs w', mapM (@to_cached Vector) res w = (inr cs, w') /\
                untouched w w' /\ Forall2 reports res cs.
Proof.
  revert w; induction res as [|sp r IH]; intro w.
  - exists [], w; repeat split; auto; apply EngineFacts.untouched_refl.
  - destruct (to_cached_reports sp w) as (c & w1 & E1 & U1 & V1).
    destruct (IH w1) as (cs & w2 & E2 & U2 & V2).
    exists (c :: cs), w2.
    cbn [mapM]; unfold bind at 1; rewrite E1.
    unfold bind at 1; rewrite E2.
    split; [reflexivity|].
    split; [eapply EngineFacts.untouched_trans; eauto | now constructor].
Qed.

Lemma search_outcome (vector : Vector) (limit : option nat) (threshold : option Q)
  (filter : option Filter) (w : World) :
  match client_search client (points w) (search_params vector limit threshold filter) with
  | inl e => search client vector limit threshold filter w = (inl e, w)
  | inr res =>
      exists cs w', search client vector limit threshold filter w = (inr cs, w') /\
                    untouched w w' /\ Forall2 reports res cs
  end.
Proof.
  unfold search, try_catch, bind, request_search.
  replace (match filter with Some f => Some f | None => None end) with filter
    by (destruct filter; reflexivity).
  fold (search_params vector limit threshold filter).
  destruct (client_search client (points w) (search_params vector limit threshold filter))
    as [e|res].
  - reflexivity.
  - destruct (mapM_to_cached_reports res w) as (cs & w' & E & U & V).
    exists cs, w'. rewrite E. auto.
Qed.

Lemma search_results_sound (vector : Vector) (limit : option nat)
  (threshold : option Q) (filter : option Filter) (w w' : World)
  (results : list CachedResult) :
  honors_contract client ->
  search client vector limit threshold filter w = (inr results, w') ->
  (length results <= q_limit (search_params vector limit threshold filter))%nat /\
  Forall (fun c => q_score_threshold (search_params vector limit threshold filter)
                   <= cr_score c) results /\
  Forall (fun c => exists p, In p (points w) /\ shows c p /\
                             matches_opt filter (pt_payload p) = true) results /\
  untouched w w'.
Proof.
  intros C Hs.
  pose proof (search_outcome vector limit threshold filter w) as O.
  destruct (client_search client (points w) (search_params vector limit threshold filter))
    as [e|res] eqn:E.
  - rewrite Hs in O; discriminate.
  - destruct O as (cs & w2 & E2 & U & V). rewrite Hs in E2; inversion E2; subst cs w2.
    pose proof (search_limited C _ _ E) as L.
    pose proof (search_above_threshold C _ _ E) as T.
    pose proof (search_filtered C _ _ E) as F.
    pose proof (search_from_collection C _ _ E) as S.
    rewrite Forall_forall in T, F, S.
    split; [now rewrite <- (Forall2_length V)|].
    split; [|split; [|exact U]].
    + apply Forall_forall; intros c Hc.
      destruct (@EngineFacts.Forall2_pick _ _ _ _ _ _ V Hc) as (sp & Hsp & (_ & Hscore)).
      rewrite Hscore. now apply T.
    + apply Forall_forall; intros c Hc.
      destruct (@EngineFacts.Forall2_pick _ _ _ _ _ _ V Hc)
        as (sp & Hsp & ((Hid & Hresp & Hmd & _) & _)).
      destruct (S sp Hsp) as (p & Hp & (Aid & Apl)).
      exists p. split; [exact Hp|]. split.
      * unfold shows. rewrite Hid, Hresp, Hmd, Aid, Apl. auto.
      * rewrite <- Apl. exact (F sp Hsp).
Qed.

(** X10. Against a store that honors its contract, a successful [search]
    returns at most [limit] results (1 by default), each with a score of at
    least [scoreThreshold] (0.8 by default), each showing a record of the
    collection that the filter accepts; the collection and the producer
    count are as before. *)
Theorem search_guarantees (vector : Vector) (limit : option nat)
  (threshold : option Q) (filter : option Filter) (w w' : World)
  (results : list CachedResult) :
  honors_contract client ->
  search client vector limit threshold filter w = (inr results, w') ->
  (length results <= match limit with Some n => n | None => 1 end)%nat /\
  Forall (fun c => match threshold with Some t => t | None => 8 # 10 end <= cr_score c)
         results /\
  Forall (fun c => exists p, In p (points w) /\ shows c p /\
                             matches_opt filter (pt_payload p) = true) results /\
  points w' = points w /\ llm_calls w' = llm_calls w.
Proof.
  intros C Hs.
  destruct (search_results_sound _ _ _ _ _ C Hs) as (L & T & S & (P & Lc & _)).
  repeat split; assumption.
Qed.

(** X11. [suggest] is [search] with its own defaults: against a store
    that honors its contract it returns at most [limit] items (5 by
    default), each with a score of at least [scoreThreshold] (0.7 by
    default) and each showing a record the filter accepts; it writes
    nothing; and a failure of the store's search is the failure of
    [suggest]. *)
Theorem suggest_guarantees (vector : Vector) (limit : option nat)
  (threshold : option Q) (filter : option Filter) (w : World) :
  honors_contract client ->
  (forall results w',
     Suggest.suggest client vector limit threshold filter w = (inr results, w') ->
     (length results <= match limit with Some n => n | None => 5 end)%nat /\
     Forall (fun c => match threshold with Some t => t | None => 7 # 10 end <= cr_score c)
            results /\
     Forall (fun c => exists p, In p (points w) /\ shows c p /\
                                matches_opt filter (pt_payload p) = true) results /\
     points w' = points w) /\
  (forall e,
     client_search client (points w)
       (search_params vector
          (Some match limit with Some n => n | None => 5%nat end)
          (Some match threshold with Some t => t | None => 7 # 10 end) filter)
     = inl e ->
     Suggest.suggest client vector limit threshold filter w = (inl e, w)).
Proof.
  intro C. unfold Suggest.suggest. split.
  - intros results w' Hs.
    destruct (search_results_sound _ _ _ _ _ C Hs) as (L & T & S & (P & _)).
    repeat split; assumption.
  - intros e He.
    pose proof (search_outcome vector
                  (Some match limit with Some n => n | None => 5%nat end)
                  (Some match threshold with Some t => t | None => 7 # 10 end)
                  filter w) as O.
    now rewrite He in O.
Qed.

(** *** [store] *)

Lemma upsert_point_fresh (pts : list (Point Vector)) (q : Point Vector) :
  (forall x, In x pts -> pt_id x <> pt_id q) -> upsert_point pts q = pts ++ [q].
Proof.
  intro H. unfold upsert_point.
  destruct (existsb (fun x => String.eqb (pt_id x) (pt_id q)) pts) eqn:E; [|reflexivity].
  apply existsb_exists in E. destruct E as (x & Hx & Hid).
  apply String.eqb_eq in Hid. exfalso. now apply (H x Hx).
Qed.

(** X12. [store] draws one id and reads the clock once.  Against a store
    that honors its contract: when it returns, it returns that id and the
    collection is the old one with the new record upserted (appended when
    the id is new, every other record untouched); when the upsert fails,
    the failure is that of [store] and the collection is unchanged.  The
    producer is never involved. *)
Theorem store_outcomes (vector : Vector) (response : string) (md : StoredMetadata)
  (ttl : option Q) (w : World) :
  honors_contract client ->
  (forall id w',
     store client vector response md ttl w = (inr id, w') ->
     id = uuids w (uuids_drawn w) /\
     points w'
     = upsert_point (points w)
         (stored_point id (clock w (clock_reads w)) vector response md ttl) /\
     ((forall x, In x (points w) -> pt_id x <> id) ->
      points w'
      = points w ++ [stored_point id (clock w (clock_reads w)) vector response md ttl])) /\
  (forall e w',
     store client vector response md ttl w = (inl e, w') ->
     client_upsert client (points w)
       (stored_point (uuids w (uuids_drawn w)) (clock w (clock_reads w))
          vector response md ttl) = inl e /\
     points w' = points w) /\
  llm_calls (snd (store client vector response md ttl w)) = llm_calls w /\
  uuids_drawn (snd (store client vector response md ttl w)) = S (uuids_drawn w) /\
  clock_reads (snd (store client vector response md ttl w)) = S (clock_reads w).
Proof.
  intro C.
  assert (Frame : uuids_drawn (snd (store client vector response md ttl w))
                  = S (uuids_drawn w) /\
                  clock_reads (snd (store client vector response md ttl w))
                  = S (clock_reads w)).
  { unfold store, bind, uuidv4, Date_now, request_upsert; simpl.
    destruct (client_upsert client (points w) _); simpl; auto. }
  pose proof (@EngineFacts.store_run Vector client vector response md ttl w) as R.
  cbv zeta in R.
  set (q := stored_point (uuids w (uuids_drawn w)) (clock w (clock_reads w))
              vector response md ttl) in *.
  destruct (client_upsert client (points w) q) as [e|pts] eqn:U;
    destruct R as (w2 & E & P & L).
  - split; [intros id w' H; rewrite E in H; discriminate|].
    split; [|split; [rewrite E; exact L | exact Frame]].
    intros e' w' H. rewrite E in H; inversion H; subst. auto.
  - split; [|split; [intros e w' H; rewrite E in H; discriminate
                    | split; [rewrite E; exact L | exact Frame]]].
    intros id w' H. rewrite E in H; inversion H; subst w2.
    assert (Hid : id = uuids w (uuids_drawn w)) by (symmetry; assumption).
    subst id. fold q.
    split; [reflexivity|].
    split; [rewrite P; apply (upsert_done C _ _ U)|].
    intro Hfresh. rewrite P, (upsert_done C _ _ U).
    now apply upsert_point_fresh.
Qed.

(** *** [capture]: failures *)

Lemma capture_search_outcome (options : CaptureOptions) (w : World) :
  match embed (prompt options) with
  | inl e => capture_search embedder client config options w = (inl e, w)
  | inr vector =>
      match client_search client (points w) (capture_params config options vector) with
      | inl e => capture_search embedder client config options w = (inl e, w)
      | inr res =>
          exists cs w1,
            capture_search embedder client config options w = (inr (vector, cs), w1) /\
            untouched w w1 /\ Forall2 reports res cs
      end
  end.
Proof.
  unfold capture_search, bind, lift.
  destruct (embed (prompt options)) as [e|vector]; [reflexivity|].
  pose proof (search_outcome vector (Some 1%nat)
                (nullish (policy_minSimilarity (policy options)) (similarityThreshold config))
                (Some (build_filter (co_metadata options))) w) as O.
  change (search_params _ _ _ _) with (capture_params config options vector) in O.
  destruct (client_search client (points w) (capture_params config options vector))
    as [e|res].
  - now rewrite O.
  - destruct O as (cs & w1 & E & U & V). exists cs, w1. rewrite E. auto.
Qed.

(** X13. A failure of the embedding or of the store's search is the
    failure of [capture], unmodified, and nothing else has happened: the
    producer was not invoked, nothing was written, no id was drawn and the
    clock was not read. *)
Theorem capture_propagates_lookup_failures (options : CaptureOptions)
  (llmCall : exn + json) (w : World) (e : exn) :
  (embed (prompt options) = inl e ->
   capture embedder client config options llmCall w = (inl e, w)) /\
  (forall vector,
     embed (prompt options) = inr vector ->
     client_search client (points w) (capture_params config options vector) = inl e ->
     capture embedder client config options llmCall w = (inl e, w)).
Proof.
  pose proof (capture_search_outcome options w) as O.
  split.
  - intro He. rewrite He in O. now rewrite EngineFacts.capture_unfold, O.
  - intros vector Hv Hs. rewrite Hv, Hs in O.
    now rewrite EngineFacts.capture_unfold, O.
Qed.

(** X14. When the producer has returned but the upsert fails, [capture]
    fails with the error of the store: the value the producer computed is
    not returned, the producer has been invoked once and the collection is
    unchanged. *)
Theorem capture_store_failure (options : CaptureOptions) (p : json) (e : exn)
  (w w1 w2 : World) (vector : Vector) (results : list CachedResult) :
  capture_search embedder client config options w = (inr (vector, results), w1) ->
  capture_hit config options results w1 = (inr None, w2) ->
  client_upsert client (points w)
    (stored_point (uuids w (uuids_drawn w)) (clock w2 (clock_reads w2)) vector
       (stringify p) (with_prompt (co_metadata options) (prompt options))
       (resolved_maxAge config options)) = inl e ->
  exists w3,
    capture embedder client config options (inr p) w = (inl e, w3) /\
    points w3 = points w /\
    llm_calls w3 = S (llm_calls w).
Proof.
  intros Hs Hh Hup.
  pose proof (@EngineFacts.capture_search_run Vector embedder client config options w) as R.
  rewrite Hs in R. destruct R as (U & _).
  destruct (@EngineFacts.capture_hit_run Vector config options results w1)
    as (r & w2' & E & U2 & _).
  rewrite Hh in E; inversion E; subst r w2'.
  destruct (EngineFacts.untouched_trans U U2) as (P & L & Uu & Ud & Uc & _).
  pose proof (@EngineFacts.capture_miss_returns Vector client config options vector p w2)
    as M; cbv zeta in M.
  rewrite P, Uu, Ud, Hup in M. destruct M as (w3 & E3 & P3 & L3).
  exists w3. rewrite EngineFacts.capture_unfold, Hs, Hh, E3.
  split; [reflexivity|]. split; congruence.
Qed.

(** *** [capture]: the four ways a call can end *)

Lemma capture_cases (options : CaptureOptions) (llmCall : exn + json)
  (w w' : World) (r : exn + CaptureResult) :
  honors_contract client ->
  capture embedder client config options llmCall w = (r, w') ->
  (exists e, r = inl e /\ w' = w /\
             (embed (prompt options) = inl e \/
              exists vector,
                embed (prompt options) = inr vector /\
                client_search client (points w) (capture_params config options vector)
                = inl e)) \/
  (exists p found,
      In p (points w) /\ shows found p /\
      filter_matches (build_filter (co_metadata options)) (pt_payload p) = true /\
      r = inr (hit_answer found) /\
      points w' = points w /\ llm_calls w' = llm_calls w) \/
  (exists e, r = inl e /\ points w' = points w /\ llm_calls w' = S (llm_calls w)) \/
  (exists p q,
      llmCall = inr p /\ r = inr (miss_answer p) /\
      points w' = upsert_point (points w) q /\
      written_for options q /\ pt_id q = uuids w (uuids_drawn w) /\
      response (pt_payload q) = stringify p /\
      llm_calls w' = S (llm_calls w)).
Proof.
  intros C Hc. rewrite EngineFacts.capture_unfold in Hc.
  pose proof (capture_search_outcome options w) as O.
  destruct (embed (prompt options)) as [e|vector].
  { rewrite O in Hc; inversion Hc; subst. left; eauto. }
  destruct (client_search client (points w) (capture_params config options vector))
    as [e|res] eqn:Es.
  { rewrite O in Hc; inversion Hc; subst. left. exists e. eauto 6. }
  destruct O as (cs & w1 & E1 & U1 & V). rewrite E1 in Hc.
  destruct (@EngineFacts.capture_hit_run Vector config options cs w1)
    as (h & w2 & E2 & U2 & Hh).
  rewrite E2 in Hc.
  destruct (EngineFacts.untouched_trans U1 U2) as (P & L & Uu & Ud & _).
  destruct h as [answer|].
  - (* hit *)
    inversion Hc; subst r w'. right; left.
    destruct cs as [|found rest]; [destruct Hh; discriminate|].
    destruct Hh as (_ & Hans).
    destruct (fresh _ _) in Hans; [|discriminate]. inversion Hans; subst answer.
    inversion V as [|sp c res' cs' (Vw & _) _]; subst.
    pose proof (search_from_collection C _ _ Es) as S.
    pose proof (search_filtered C _ _ Es) as F.
    inversion S as [|? ? (p & Hp & (Aid & Apl)) _]; subst.
    inversion F as [|? ? Hf _]; subst.
    destruct Vw as (Hid & Hresp & Hmd & _).
    exists p, found. repeat split; auto.
    + congruence.
    + congruence.
    + congruence.
    + rewrite <- Apl. exact Hf.
  - (* miss *)
    destruct llmCall as [e|p].
    + destruct (@EngineFacts.capture_miss_throws Vector client config options vector e w2)
        as (w3 & E3 & P3 & L3).
      rewrite E3 in Hc; inversion Hc; subst r w'.
      right; right; left. exists e. repeat split; congruence.
    + pose proof (@EngineFacts.capture_miss_returns Vector client config options vector p w2)
        as M; cbv zeta in M.
      destruct (client_upsert client (points w2) _) as [e|pts] eqn:Up;
        destruct M as (w3 & E3 & P3 & L3); rewrite E3 in Hc; inversion Hc; subst r w'.
      * right; right; left. exists e. repeat split; congruence.
      * right; right; right.
        eexists p, _. split; [reflexivity|]. split; [reflexivity|].
        split; [rewrite P3, (upsert_done C _ _ Up), P; reflexivity|].
        split; [reflexivity|].
        split; [cbn; congruence|]. split; [reflexivity | congruence].
Qed.

(** X15. [capture] invokes the producer at most once and writes at most
    one record, which carries the metadata and the prompt of the request
    under the id just drawn; when that id is new, every record that was in
    the collection is still there afterwards (a stale candidate included:
    it is neither deleted nor overwritten). *)
Theorem capture_only_appends (options : CaptureOptions) (llmCall : exn + json)
  (w w' : World) (r : exn + CaptureResult) :
  honors_contract client ->
  capture embedder client config options llmCall w = (r, w') ->
  (llm_calls w' = llm_calls w \/ llm_calls w' = S (llm_calls w)) /\
  (points w' = points w \/
   exists q, points w' = upsert_point (points w) q /\
             written_for options q /\ pt_id q = uuids w (uuids_drawn w)) /\
  ((forall x, In x (points w) -> pt_id x <> uuids w (uuids_drawn w)) ->
   forall x, In x (points w) -> In x (points w')).
Proof.
  intros C Hc.
  destruct (capture_cases _ _ _ C Hc)
    as [(e & _ & -> & _)
       |[(p & found & _ & _ & _ & _ & P & L)
        |[(e & _ & P & L)
         |(p & q & _ & _ & P & Wq & Iq & _ & L)]]].
  - repeat split; auto.
  - repeat split; auto. intros _ x Hx. now rewrite P.
  - repeat split; auto. intros _ x Hx. now rewrite P.
  - split; [auto|]. split; [right; exists q; auto|].
    intros Hfresh x Hx. rewrite P, upsert_point_fresh.
    + apply in_or_app; auto.
    + intros y Hy. rewrite Iq. now apply Hfresh.
Qed.

(** X16. What an answer of [capture] means, against a store that honors
    its contract.  An answer with [cached = true] has [cost_saved = true],
    cost no producer call and no write, and its response is the stored
    response of a record of the collection that the tenant filter of the
    request accepts.  An answer with [cached = false] has no [cost_saved]
    field, and its response is the value the producer returned in its one
    invocation. *)
Theorem capture_answers_are_grounded (options : CaptureOptions)
  (llmCall : exn + json) (w w' : World) (answer : CaptureResult) :
  honors_contract client ->
  capture embedder client config options llmCall w = (inr answer, w') ->
  (cached answer = true ->
   cost_saved answer = Some true /\
   llm_calls w' = llm_calls w /\ points w' = points w /\
   exists p, In p (points w) /\
             cr_payload answer = JStr (response (pt_payload p)) /\
             filter_matches (build_filter (co_metadata options)) (pt_payload p) = true) /\
  (cached answer = false ->
   cost_saved answer = None /\
   llmCall = inr (cr_payload answer) /\
   llm_calls w' = S (llm_calls w)).
Proof.
  intros C Hc.
  destruct (capture_cases _ _ _ C Hc)
    as [(e & He & _)
       |[(p & found & Hp & (_ & Hresp & _) & Hf & Hr & P & L)
        |[(e & He & _)
         |(p & q & Hll & Hr & _ & _ & _ & _ & L)]]];
    try discriminate; inversion Hr; subst answer; cbn.
  - split; [|discriminate]. intros _. repeat split; auto.
    exists p. repeat split; auto. now rewrite Hresp.
  - split; [discriminate|]. intros _. auto.
Qed.

(** X17. On an empty collection [capture] never answers from the cache:
    whenever it returns, the answer is the producer's value with
    [cached = false]; and whenever the embedding and the search succeed,
    the producer is invoked exactly once. *)
Theorem capture_on_empty_collection (options : CaptureOptions)
  (llmCall : exn + json) (w : World) :
  honors_contract client ->
  points w = [] ->
  (forall answer w',
     capture embedder client config options llmCall w = (inr answer, w') ->
     cached answer = false /\ llmCall = inr (cr_payload answer) /\
     llm_calls w' = S (llm_calls w)) /\
  (forall vector res,
     embed (prompt options) = inr vector ->
     client_search client (points w) (capture_params config options vector) = inr res ->
     llm_calls (snd (capture embedder client config options llmCall w))
     = S (llm_calls w)).
Proof.
  intros C Hempty. split.
  - intros answer w' Hc.
    destruct (capture_cases _ _ _ C Hc)
      as [(e & He & _)
         |[(p & found & Hp & _)
          |[(e & He & _)
           |(p & q & Hll & Hr & _ & _ & _ & _ & L)]]];
      try discriminate.
    + rewrite Hempty in Hp; contradiction.
    + inversion Hr; subst answer; cbn. auto.
  - intros vector res Hv Hs.
    destruct (capture embedder client config options llmCall w) as [r w'] eqn:Hc.
    destruct (capture_cases _ _ _ C Hc)
      as [(e & He & Hw)
         |[(p & found & Hp & _)
          |[(e & He & _ & L)
           |(p & q & _ & _ & _ & _ & _ & _ & L)]]]; simpl; auto.
    + exfalso. destruct Hw as (_ & [Hf|(v' & Hv' & Hf)]); [congruence|].
      rewrite Hv in Hv'; inversion Hv'; subst v'. congruence.
    + rewrite Hempty in Hp; contradiction.
Qed.

(** *** Freshness and the sweep *)

Lemma age_below_ttl (now created t : Q) :
  (now - created) / 1000 < t -> now < created + t * 1000.
Proof.
  intro H.
  assert (H1 : (now - created) / 1000 * 1000 < t * 1000)
    by (apply Qmult_lt_compat_r; [reflexivity | exact H]).
  assert (E : (now - created) / 1000 * 1000 == now - created) by (field; discriminate).
  rewrite E in H1.
  apply (Qplus_lt_l _ _ created) in H1.
  assert (E2 : now - created + created == now) by ring.
  rewrite E2 in H1. rewrite (Qplus_comm created). exact H1.
Qed.

(** X18. The sweep never removes a record that [capture] would still
    serve: a record with a positive TTL [t] whose age, at the instant
    [cleanup] reads the clock, passes the freshness test of [capture] for
    [maxAge = t], is still in the collection after [cleanup]. *)
Theorem fresh_records_are_not_swept (w : World) (q : Point Vector) (created t : Q) :
  honors_contract client ->
  0 < t ->
  In q (points w) ->
  createdAt (pt_payload q) = created ->
  expiresAt (pt_payload q) = Some (created + t * 1000) ->
  fresh (Some t) ((clock w (clock_reads w) - created) / 1000) = true ->
  In q (points (snd (QdrantCache.cleanup client w))).
Proof.
  intros C Ht Hin Hc He Hf.
  apply EngineFacts.fresh_true_iff in Hf.
  destruct Hf as [Hf|(m & Hm & [Hz|Hage])]; [discriminate| |];
    inversion Hm; subst m.
  - rewrite Hz in Ht. now apply Qlt_irrefl in Ht.
  - apply age_below_ttl in Hage.
    unfold QdrantCache.cleanup, bind, try_catch, Date_now, request_delete; simpl.
    destruct (client_delete client (points w)
                {| must := [RangeLt "expiresAt" (clock w (clock_reads w))] |})
      as [e|pts] eqn:D; simpl; [exact Hin|].
    rewrite (delete_done C _ _ D). unfold delete_matching.
    apply filter_In. split; [exact Hin|].
    rewrite EngineFacts.sweep_filter_is_expired_before.
    unfold expired_before. rewrite He.
    apply negb_true_iff, EngineFacts.Qlt_bool_false_iff. now apply Qlt_le_weak.
Qed.

End More.

(** *** One tenant, several users and models *)

Section Shared.

Variable Vector : Type.
Variable similarity : Vector -> Vector -> Q.
Variable embedder : EmbeddingProvider Vector.
Variable config : Config.

(** X19. The cache is scoped by tenant only: on the exhaustive reference
    store, the record written by a capture is served as a hit to a later
    capture for the same prompt and the same [tenantId], whatever the
    [userId], [provider] and [model] of the two requests are. *)
Theorem cache_shared_across_users_and_models (writer reader : CaptureOptions)
  (p : json) (llmCall : exn + json) (w : Run.World Vector) (v : Vector) :
  tenantId (co_metadata reader) = tenantId (co_metadata writer) ->
  prompt reader = prompt writer ->
  points w = [] ->
  embed (prompt writer) = inr v ->
  q_score_threshold (capture_params config reader v) <= similarity v v ->
  ~ clock w (clock_reads w) == 0 ->
  fresh (resolved_maxAge config reader)
        ((clock w (S (clock_reads w)) - clock w (clock_reads w)) / 1000) = true ->
  exists w1 w2,
    capture embedder (mem_client similarity) config writer (inr p) w
    = (inr {| cr_payload := p; cached := false; cost_saved := None |}, w1) /\
    capture embedder (mem_client similarity) config reader llmCall w1
    = (inr {| cr_payload := JStr (stringify p); cached := true; cost_saved := Some true |},
       w2) /\
    llm_calls w2 = llm_calls w1.
Proof.
  intros Ht Hp Hpts Hv Hs Hc Hf.
  destruct (@EngineFacts.write_then_read Vector similarity embedder config
              writer reader p llmCall w v)
    as (w1 & w2 & q & E1 & _ & _ & _ & E2 & L); auto.
  exists w1, w2. auto.
Qed.

End Shared.

End EngineMore.

(** ** Preparing the collection *)

Module AdminFacts.

Import JS Qdrant Admin AdminTerms.
Local Open Scope string_scope.
Local Open Scope list_scope.

Section Server.

Variable Server : Type.
Variable respond : Server -> Request -> (exn + unit) * Server.

Local Abbreviation State := (Admin.State Server).

(** The lines one index creation adds to the console. *)
Lemma createIndex_run (name field : string) (type : FieldType) (s : State) :
  exists s',
    createIndex respond name field type s = (inr tt, s') /\
    sent s' = sent s ++ [CreatePayloadIndex name field type] /\
    server s' = snd (respond (server s) (CreatePayloadIndex name field type)) /\
    (console s' = console s \/
     exists msg,
       fst (respond (server s) (CreatePayloadIndex name field type)) = inl msg /\
       contains_ci "already exists" msg = false /\
       console s'
       = console s
         ++ [Warn ("[opti-llm] payload index ensure warning for " ++ field ++ ":")%string msg]).
Proof.
  unfold createIndex, try_catch, request.
  destruct (respond (server s) (CreatePayloadIndex name field type)) as [[msg|[]] srv];
    simpl.
  - destruct (contains_ci "already exists" msg) eqn:E; simpl;
      eexists; (split; [reflexivity|]); simpl; repeat split; auto.
    right. exists msg. auto.
  - eexists; split; [reflexivity|]; simpl; auto.
Qed.

Lemma createIndex_keeps_lines (name field : string) (type : FieldType) (s s' : State)
  (r : exn + unit) :
  createIndex respond name field type s = (r, s') ->
  forall l, In l (console s) -> In l (console s').
Proof.
  intros E l Hl.
  destruct (createIndex_run name field type s) as (s1 & E1 & _ & _ & [K|(msg & _ & _ & K)]);
    rewrite E in E1; inversion E1; subst s1; rewrite K; auto.
  apply in_or_app; auto.
Qed.

Lemma ensurePayloadIndexes_run (name : string) (s : State) :
  exists s',
    ensurePayloadIndexes respond name s = (inr tt, s') /\
    sent s' = sent s ++ index_requests name /\
    (forall l, In l (console s) -> In l (console s')).
Proof.
  unfold ensurePayloadIndexes, index_requests.
  destruct (createIndex_run name "metadata.tenantId" keyword s) as (s1 & E1 & S1 & _).
  destruct (createIndex_run name "metadata.provider" keyword s1) as (s2 & E2 & S2 & _).
  destruct (createIndex_run name "metadata.model" keyword s2) as (s3 & E3 & S3 & _).
  destruct (createIndex_run name "metadata.userId" keyword s3) as (s4 & E4 & S4 & _).
  destruct (createIndex_run name "expiresAt" integer s4) as (s5 & E5 & S5 & _).
  destruct (createIndex_run name "createdAt" integer s5) as (s6 & E6 & S6 & _).
  exists s6. unfold bind. rewrite E1, E2, E3, E4, E5, E6.
  split; [reflexivity|]. split.
  - rewrite S6, S5, S4, S3, S2, S1. rewrite <- !app_assoc. reflexivity.
  - intros l Hl.
    eapply createIndex_keeps_lines; [exact E6|].
    eapply createIndex_keeps_lines; [exact E5|].
    eapply createIndex_keeps_lines; [exact E4|].
    eapply createIndex_keeps_lines; [exact E3|].
    eapply createIndex_keeps_lines; [exact E2|].
    eapply createIndex_keeps_lines; [exact E1|]. exact Hl.
Qed.

Lemma ensureCollection_trace (name : string) (vectorSize : nat) (s : State)
  (e0 : exn) (srv srv' : Server) :
  respond (server s) (GetCollection name) = (inl e0, srv) ->
  respond srv (CreateCollection name vectorSize "Cosine") = (inr tt, srv') ->
  exists s',
    ensureCollection respond name vectorSize s = (inr tt, s') /\
    sent s'
    = sent s ++ GetCollection name :: CreateCollection name vectorSize "Cosine"
                :: index_requests name /\
    In (Log ("Created Qdrant collection: " ++ name)%string) (console s').
Proof.
  intros Hg Hc.
  unfold ensureCollection, bind at 1, try_catch, request. rewrite Hg.
  unfold bind at 1. simpl. rewrite Hc. unfold print.
  match goal with |- context [ensurePayloadIndexes respond name ?s1] =>
    destruct (ensurePayloadIndexes_run name s1) as (s' & E & S & K) end.
  exists s'. split; [exact E|]. split.
  - rewrite S. simpl. rewrite <- !app_assoc. reflexivity.
  - apply K. simpl. apply in_or_app; right; simpl; auto.
Qed.

(** X20. [ensureCollection] asks for the collection first.  When that
    request succeeds it never creates anything, whatever [vectorSize] is,
    and goes on to the six index requests.  When it fails, for whatever
    reason, it requests a collection of that size with cosine distance: a
    failure of this request is the failure of [ensureCollection] and no
    index is requested; otherwise the six index requests follow.  Failing
    index requests never make [ensureCollection] fail. *)
Theorem ensureCollection_outcomes (name : string) (vectorSize : nat) (s : State) :
  (forall srv,
     respond (server s) (GetCollection name) = (inr tt, srv) ->
     exists s',
       ensureCollection respond name vectorSize s = (inr tt, s') /\
       sent s' = sent s ++ GetCollection name :: index_requests name) /\
  (forall e0 srv e srv',
     respond (server s) (GetCollection name) = (inl e0, srv) ->
     respond srv (CreateCollection name vectorSize "Cosine") = (inl e, srv') ->
     exists s',
       ensureCollection respond name vectorSize s = (inl e, s') /\
       sent s' = sent s ++ [GetCollection name; CreateCollection name vectorSize "Cosine"]) /\
  (forall e0 srv srv',
     respond (server s) (GetCollection name) = (inl e0, srv) ->
     respond srv (CreateCollection name vectorSize "Cosine") = (inr tt, srv') ->
     exists s',
       ensureCollection respond name vectorSize s = (inr tt, s') /\
       sent s'
       = sent s ++ GetCollection name :: CreateCollection name vectorSize "Cosine"
                   :: index_requests name /\
       In (Log ("Created Qdrant collection: " ++ name)%string) (console s')).
Proof.
  split; [|split].
  - intros srv Hg.
    unfold ensureCollection, bind at 1, try_catch, request. rewrite Hg.
    match goal with |- context [ensurePayloadIndexes respond name ?s1] =>
      destruct (ensurePayloadIndexes_run name s1) as (s' & E & S & _) end.
    exists s'. split; [exact E|]. rewrite S. simpl. now rewrite <- app_assoc.
  - intros e0 srv e srv' Hg Hc.
    unfold ensureCollection, bind, try_catch, request. rewrite Hg. simpl. rewrite Hc.
    eexists; split; [reflexivity|]. simpl. now rewrite <- app_assoc.
  - intros e0 srv srv' Hg Hc. eapply ensureCollection_trace; eassumption.
Qed.

Lemma createIndex_quiet (name field : string) (type : FieldType) (s : State) :
  (forall srv r msg, is_index_request r = true ->
     fst (respond srv r) = inl msg -> contains_ci "already exists" msg = true) ->
  exists s', createIndex respond name field type s = (inr tt, s') /\
             console s' = console s.
Proof.
  intro Q.
  destruct (createIndex_run name field type s)
    as (s' & E & _ & _ & [K|(msg & Hm & Hc & _)]).
  - exists s'; auto.
  - rewrite (Q (server s) (CreatePayloadIndex name field type) msg eq_refl Hm) in Hc.
    discriminate.
Qed.

Lemma ensurePayloadIndexes_quiet (name : string) (s : State) :
  (forall srv r msg, is_index_request r = true ->
     fst (respond srv r) = inl msg -> contains_ci "already exists" msg = true) ->
  exists s', ensurePayloadIndexes respond name s = (inr tt, s') /\
             console s' = console s.
Proof.
  intro Q. unfold ensurePayloadIndexes.
  destruct (createIndex_quiet name "metadata.tenantId" keyword s Q) as (s1 & E1 & K1).
  destruct (createIndex_quiet name "metadata.provider" keyword s1 Q) as (s2 & E2 & K2).
  destruct (createIndex_quiet name "metadata.model" keyword s2 Q) as (s3 & E3 & K3).
  destruct (createIndex_quiet name "metadata.userId" keyword s3 Q) as (s4 & E4 & K4).
  destruct (createIndex_quiet name "expiresAt" integer s4 Q) as (s5 & E5 & K5).
  destruct (createIndex_quiet name "createdAt" integer s5 Q) as (s6 & E6 & K6).
  exists s6. unfold bind. rewrite E1, E2, E3, E4, E5, E6.
  split; [reflexivity|]. rewrite K6, K5, K4, K3, K2, K1. reflexivity.
Qed.

(** X21. Running [ensureCollection] against a collection that exists
    prints nothing, provided every index request that fails does so with a
    message containing "already exists" in any letter case: such failures
    are swallowed without a warning. *)
Theorem ensureCollection_is_quiet (name : string) (vectorSize : nat) (s : State)
  (srv : Server) :
  (forall srv r msg, is_index_request r = true ->
     fst (respond srv r) = inl msg -> contains_ci "already exists" msg = true) ->
  respond (server s) (GetCollection name) = (inr tt, srv) ->
  fst (ensureCollection respond name vectorSize s) = inr tt /\
  console (snd (ensureCollection respond name vectorSize s)) = console s.
Proof.
  intros Q Hg.
  unfold ensureCollection, bind, try_catch, request. rewrite Hg.
  match goal with |- context [ensurePayloadIndexes respond name ?s0] =>
    destruct (ensurePayloadIndexes_quiet name s0 Q) as (s' & E & K) end.
  rewrite E. simpl in *. split; [reflexivity | exact K].
Qed.

End Server.

End AdminFacts.

(** ** Construction and initialisation *)

Module LifecycleFacts.

Import JS Qdrant OptiLLM Admin AdminTerms Lifecycle.
Local Open Scope string_scope.
Local Open Scope list_scope.


Section Init.

Variable create : string -> string -> string -> exn + list (list R).
Variable Server : Type.
Variable respond : Server -> Request -> (exn + unit) * Server.

Lemma local_embed_length (dim : nat) (text : string) :
  length (LocalEmbedding.embed dim text) = dim.
Proof.
  unfold LocalEmbedding.embed.
  destruct (Rlt_dec 0 _); rewrite length_map;
    apply LocalEmbeddingFacts.accumulate_length.
Qed.

(** X23. [init] sizes the collection after the test embedding: with the
    local embedder of dimension [dim], when the collection is missing and
    its creation succeeds, [init] succeeds after requesting a collection of
    exactly [dim] components with cosine distance, which is the length of
    every vector the embedder produces afterwards. *)
Theorem init_fixes_dimension (eng : Engine) (dim : nat) (s : Admin.State Server)
  (e0 : exn) (srv srv' : Server) :
  e_embedder eng = Local dim ->
  respond (server s) (GetCollection (ca_collectionName (e_cache eng))) = (inl e0, srv) ->
  respond srv (CreateCollection (ca_collectionName (e_cache eng)) dim "Cosine")
  = (inr tt, srv') ->
  (exists s',
     init create respond eng s = (inr tt, s') /\
     sent s'
     = sent s ++ GetCollection (ca_collectionName (e_cache eng))
                 :: CreateCollection (ca_collectionName (e_cache eng)) dim "Cosine"
                 :: index_requests (ca_collectionName (e_cache eng))) /\
  (forall text v,
     embed (EmbeddingProvider := provider_of create (e_embedder eng)) text = inr v ->
     length v = dim).
Proof.
  intros He Hg Hc. split.
  - unfold init. rewrite He. cbn [provider_of embed LocalEmbedding_provider].
    rewrite local_embed_length.
    destruct (@AdminFacts.ensureCollection_trace Server respond
                (ca_collectionName (e_cache eng)) dim s e0 srv srv' Hg Hc)
      as (s' & E & S & _).
    exists s'. auto.
  - intros text v. rewrite He. cbn [provider_of embed LocalEmbedding_provider].
    intro H; inversion H. apply local_embed_length.
Qed.

End Init.

End LifecycleFacts.

(** ** The further properties on the concrete deployment *)

Module ScenarioMore.

Import JS JSON Qdrant Run QdrantCache OptiLLM Measure Terms Scenario Scenario2.
Local Open Scope Q_scope.
Local Open Scope string_scope.

Lemma reference_honors : honors_contract client.
Proof. apply ReferenceStore.mem_client_honors. Qed.

(** A search with every default, for the vector of the stored prompt. *)
Lemma search_guarantees_witness :
  exists results w',
    search client (pt_vector acme_record) None None None (after_first 5000)
    = (inr results, w') /\
    (length results <= 1)%nat /\
    Forall (fun c => 8 # 10 <= cr_score c) results.
Proof.
  destruct (search client (pt_vector acme_record) None None None (after_first 5000))
    as [[e|results] w'] eqn:E; [vm_compute in E; discriminate|].
  exists results, w'. split; [reflexivity|].
  destruct (@EngineMore.search_guarantees Vector client (pt_vector acme_record)
              None None None (after_first 5000) w' results reference_honors E)
    as (L & T & _).
  split; assumption.
Defined.

(** A suggestion request with the default limit and threshold. *)
Lemma suggest_guarantees_witness :
  exists results w',
    Suggest.suggest client (pt_vector acme_record) None None None (after_first 5000)
    = (inr results, w') /\
    (length results <= 5)%nat /\
    Forall (fun c => 7 # 10 <= cr_score c) results.
Proof.
  destruct (Suggest.suggest client (pt_vector acme_record) None None None
              (after_first 5000)) as [[e|results] w'] eqn:E;
    [vm_compute in E; discriminate|].
  exists results, w'. split; [reflexivity|].
  destruct (proj1 (@EngineMore.suggest_guarantees Vector client (pt_vector acme_record)
                     None None None (after_first 5000) reference_honors)
              results w' E) as (L & T & _).
  split; assumption.
Defined.

(** A second record stored beside the first. *)
Lemma store_outcomes_witness :
  exists id w',
    store client [1%Z] "null" (with_prompt (co_metadata (options_for None)) "p")
      (Some 60) (after_first 5000) = (inr id, w') /\
    length (points w') = 2%nat /\
    In acme_record (points w').
Proof.
  destruct (store client [1%Z] "null" (with_prompt (co_metadata (options_for None)) "p")
              (Some 60) (after_first 5000)) as [[e|id] w'] eqn:E;
    [vm_compute in E; discriminate|].
  exists id, w'. split; [reflexivity|].
  destruct (proj1 (@EngineMore.store_outcomes Vector client [1%Z] "null"
                     (with_prompt (co_metadata (options_for None)) "p") (Some 60)
                     (after_first 5000) reference_honors) id w' E)
    as (Hid & _ & Happ).
  rewrite Happ.
  - split; [reflexivity|]. apply in_or_app; left. vm_compute. left; reflexivity.
  - intros x Hx. rewrite Hid. vm_compute in Hx. destruct Hx as [<-|[]].
    vm_compute. discriminate.
Defined.

(** The store is down: the search fails and so does [capture], at
    once. *)
Lemma capture_propagates_lookup_failures_witness :
  capture embedder (down_client Vector "ECONNREFUSED") config (options_for (Some "acme"))
    (inr (JStr "Paris")) (world 5000)
  = (inl "ECONNREFUSED", world 5000).
Proof.
  eapply (proj2 (@EngineMore.capture_propagates_lookup_failures Vector embedder
                   (down_client Vector "ECONNREFUSED") config (options_for (Some "acme"))
                   (inr (JStr "Paris")) (world 5000) "ECONNREFUSED")).
  - reflexivity.
  - reflexivity.
Defined.

(** The store accepts searches but no write: the producer runs, and its
    answer is lost. *)
Lemma capture_store_failure_witness :
  exists w3,
    capture embedder (readonly_client "disk full") config (options_for (Some "acme"))
      (inr (JStr "Paris")) (world 5000)
    = (inl "disk full", w3) /\
    points w3 = [] /\
    llm_calls w3 = 1%nat.
Proof.
  edestruct (@EngineMore.capture_store_failure Vector embedder
               (readonly_client "disk full") config (options_for (Some "acme"))
               (JStr "Paris") "disk full" (world 5000)) as (w3 & E & P & L).
  - vm_compute. reflexivity.
  - vm_compute. reflexivity.
  - reflexivity.
  - exists w3. auto.
Defined.

(** The stale record of the first capture is still there after the
    capture that replaced it. *)
Lemma capture_only_appends_witness :
  In acme_record
     (points (snd (run_capture (options_for (Some "acme")) (inr (JStr "Paris again"))
                     (after_first 70000)))) /\
  length (points (snd (run_capture (options_for (Some "acme")) (inr (JStr "Paris again"))
                         (after_first 70000)))) = 2%nat.
Proof.
  split; [|vm_compute; reflexivity].
  unfold run_capture.
  destruct (capture embedder client config (options_for (Some "acme"))
              (inr (JStr "Paris again")) (after_first 70000)) as [r w'] eqn:E.
  apply (proj2 (proj2 (@EngineMore.capture_only_appends Vector embedder client config
                         (options_for (Some "acme")) (inr (JStr "Paris again"))
                         (after_first 70000) w' r reference_honors E))).
  - intros x Hx. vm_compute in Hx. destruct Hx as [<-|[]]. vm_compute. discriminate.
  - vm_compute. left; reflexivity.
Defined.

(** The hit of the second capture is the stored response of the record of
    tenant [acme]. *)
Lemma capture_answers_are_grounded_witness :
  exists answer w' p,
    run_capture (options_for (Some "acme")) (inl "producer must not run") (after_first 5000)
    = (inr answer, w') /\
    cached answer = true /\
    In p (points (after_first 5000)) /\
    cr_payload answer = JStr (response (pt_payload p)).
Proof.
  unfold run_capture.
  destruct (capture embedder client config (options_for (Some "acme"))
              (inl "producer must not run") (after_first 5000))
    as [[e|answer] w'] eqn:E; [vm_compute in E; discriminate|].
  assert (Hc : cached answer = true) by (vm_compute in E; inversion E; reflexivity).
  destruct (proj1 (@EngineMore.capture_answers_are_grounded Vector embedder client config
                     (options_for (Some "acme")) (inl "producer must not run")
                     (after_first 5000) w' answer reference_honors E) Hc)
    as (_ & _ & _ & p & Hp & Hr & _).
  exists answer, w', p. auto.
Defined.

(** The first capture, on the empty collection. *)
Lemma capture_on_empty_collection_witness :
  llm_calls (snd (run_capture (options_for (Some "acme")) (inr (JStr "Paris")) (world 5000)))
  = 1%nat.
Proof.
  unfold run_capture.
  eapply (proj2 (@EngineMore.capture_on_empty_collection Vector embedder client config
                   (options_for (Some "acme")) (inr (JStr "Paris")) (world 5000)
                   reference_honors eq_refl)).
  - reflexivity.
  - reflexivity.
Defined.

(** Five seconds after it was written with a TTL of 60 seconds, the record
    survives the sweep. *)
Lemma fresh_records_are_not_swept_witness :
  In acme_record (points (snd (QdrantCache.cleanup client (after_first 5000)))).
Proof.
  apply (@EngineMore.fresh_records_are_not_swept Vector client (after_first 5000)
           acme_record (inject_Z 1700000000000) 60 reference_honors).
  - reflexivity.
  - vm_compute. left; reflexivity.
  - reflexivity.
  - reflexivity.
  - vm_compute. reflexivity.
Defined.

(** Bob, on another provider and model, is served what was cached for the
    first user of tenant [acme]. *)
Lemma cache_shared_across_users_and_models_witness :
  exists w1 w2,
    run_capture (options_for (Some "acme")) (inr (JStr "Paris")) (world 5000)
    = (inr {| cr_payload := JStr "Paris"; cached := false; cost_saved := None |}, w1) /\
    run_capture options_of_colleague (inl "producer must not run") w1
    = (inr {| cr_payload := JStr (stringify (JStr "Paris"));
              cached := true; cost_saved := Some true |}, w2).
Proof.
  unfold run_capture, client.
  edestruct (@EngineMore.cache_shared_across_users_and_models Vector similarity embedder
               config (options_for (Some "acme")) options_of_colleague (JStr "Paris")
               (inl "producer must not run") (world 5000)
               (LocalEmbedding.accumulate 8
                  (LocalEmbedding.tokenize (prompt (options_for None)))))
    as (w1 & w2 & E1 & E2 & _).
  - reflexivity.
  - reflexivity.
  - reflexivity.
  - reflexivity.
  - vm_compute. discriminate.
  - vm_compute. discriminate.
  - vm_compute. reflexivity.
  - exists w1, w2. auto.
Defined.

End ScenarioMore.

(** ** The administrative calls on the concrete service *)

Module DeploymentFacts.

Import Qdrant OptiLLM Admin AdminTerms Lifecycle Deployment.
Local Open Scope string_scope.
Local Open Scope list_scope.

(** The service refuses to index a field twice, with a message that the
    SDK recognises. *)
Lemma toy_refusals_recognised (t : Toy) (r : Request) (msg : exn) :
  is_index_request r = true ->
  fst (toy_respond t r) = inl msg ->
  contains_ci "already exists" msg = true.
Proof.
  destruct r as [n|n sz d|n f ty]; simpl; try discriminate.
  intros _. destruct (existsb (String.eqb f) (toy_indexed t)); simpl; [|discriminate].
  intro H; inversion H. reflexivity.
Qed.

(** On the empty service the collection is created, then the six indexes
    are. *)
Lemma ensureCollection_outcomes_witness :
  exists s',
    ensureCollection toy_respond "llm_cache" 384 (fresh_state empty_toy) = (inr tt, s') /\
    sent s'
    = GetCollection "llm_cache" :: CreateCollection "llm_cache" 384 "Cosine"
        :: index_requests "llm_cache" /\
    In (Log "Created Qdrant collection: llm_cache") (console s').
Proof.
  destruct (@AdminFacts.ensureCollection_outcomes Toy toy_respond "llm_cache" 384
              (fresh_state empty_toy)) as (_ & _ & H).
  apply (H "Not found: Collection doesn't exist!" empty_toy
           {| toy_size := Some 384%nat; toy_indexed := [] |}); reflexivity.
Defined.

(** On the service that has the collection and two of the indexes nothing
    is printed. *)
Lemma ensureCollection_is_quiet_witness :
  fst (ensureCollection toy_respond "llm_cache" 384 (fresh_state ready_toy)) = inr tt /\
  console (snd (ensureCollection toy_respond "llm_cache" 384 (fresh_state ready_toy))) = [].
Proof.
  apply (@AdminFacts.ensureCollection_is_quiet Toy toy_respond "llm_cache" 384
           (fresh_state ready_toy) ready_toy).
  - intros srv r msg. apply toy_refusals_recognised.
  - reflexivity.
Defined.

(** The engine built from the URL alone creates a collection of 384
    components. *)
Lemma init_fixes_dimension_witness :
  constructor local_options = inr local_engine /\
  exists s',
    init offline toy_respond local_engine (fresh_state empty_toy) = (inr tt, s') /\
    sent s'
    = GetCollection "llm_cache" :: CreateCollection "llm_cache" 384 "Cosine"
        :: index_requests "llm_cache".
Proof.
  split; [reflexivity|].
  apply (proj1 (@LifecycleFacts.init_fixes_dimension offline Toy toy_respond local_engine
                  384 (fresh_state empty_toy) "Not found: Collection doesn't exist!"
                  empty_toy {| toy_size := Some 384%nat; toy_indexed := [] |}
                  eq_refl eq_refl eq_refl)).
Defined.

End DeploymentFacts.
